(** * junction.formatting: rich text with zero-width formatting markers

    A shallow embedding of [src/junction/formatting.py]: the classes
    [Format], [ParameterizingFormat], [StringWithFormatting] and
    [TextWrapper], followed by the properties of concatenation, slicing
    and wrapping.

    Python values are dynamically typed, so the three kinds of objects
    the module passes around (plain [str], [Format] markers and
    [StringWithFormatting]) are the constructors of one type [value];
    every operator is a function on [value] that dispatches on the
    constructor the way Python dispatches on the class, and that returns
    [Raise e] where Python raises.

    Characters are code points below 256 ([ascii]); the only property of
    a character the module looks at is whether it is white space. *)

From Stdlib Require Import ZArith Ascii String Lia.
From stdpp Require Import base list strings sorting.

Set Warnings "-register-all".
Local Open Scope Z_scope.

(** ** Exceptions and fallible results *)

Inductive exn : Type :=
| IndexError
| AttributeError
| TypeError.

Inductive outcome (A : Type) : Type :=
| Ok (a : A)
| Raise (e : exn).

Arguments Ok {A} a.
Arguments Raise {A} e.

Definition bind {A B : Type} (r : outcome A) (k : A -> outcome B) : outcome B :=
  match r with
  | Ok a => k a
  | Raise e => Raise e
  end.

Notation "'let*' x := r 'in' k" := (bind r (fun x => k))
  (at level 10, x pattern, r at level 100, k at level 200).

(** ** Format and ParameterizingFormat *)

(** [Format(terminal_attribute)] and its subclass, whose [args] are
    [None] until the marker is called with arguments. *)
Inductive Format : Type :=
| PlainFormat (terminal_attribute : string)
| ParameterizingFormat (terminal_attribute : string) (args : option (list Z)).

Definition terminal_attribute (f : Format) : string :=
  match f with
  | PlainFormat a => a
  | ParameterizingFormat a _ => a
  end.

(** [FormatFactory.__getattr__] *)
Definition FormatFactory (terminal_attribute : string) : Format :=
  if (String.eqb terminal_attribute "color" || String.eqb terminal_attribute "on_color")%bool
  then ParameterizingFormat terminal_attribute None
  else PlainFormat terminal_attribute.

(** ** Values *)

(** [SWF content] is a [StringWithFormatting] whose [_content] tuple is
    [content].  The constructor does not restrict what the tuple holds,
    and neither does the type. *)
Inductive value : Type :=
| Str (s : string)
| Fmt (f : Format)
| SWF (content : list value).

Definition is_format (v : value) : bool :=
  match v with
  | Fmt _ => true
  | _ => false
  end.

(** A rich text is well formed when its segments are plain strings and
    markers only. *)
Definition is_segment (v : value) : bool :=
  match v with
  | SWF _ => false
  | _ => true
  end.

Definition well_formed (v : value) : Prop :=
  match v with
  | SWF content => forallb is_segment content = true
  | _ => False
  end.

(** [StringWithFormatting.__init__]: from another rich text, from a
    [str], or from any iterable of segments (a [Format] iterates as the
    one-element sequence holding itself). *)
Inductive init_arg : Type :=
| OfValue (v : value)
| OfSeq (content : list value).

Definition StringWithFormatting (content : init_arg) : value :=
  match content with
  | OfValue (SWF c) => SWF c
  | OfValue (Str s) => SWF [Str s]
  | OfValue (Fmt f) => SWF [Fmt f]
  | OfSeq c => SWF c
  end.

(** ** str(), len() and truth value *)

(** [''.join(s for s in self._content if not isinstance(s, Format))];
    [str.join] raises [TypeError] on an item that is not a [str]. *)
Fixpoint join_plain (content : list value) : outcome string :=
  match content with
  | [] => Ok ""
  | Fmt _ :: rest => join_plain rest
  | Str s :: rest => let* r := join_plain rest in Ok (s +:+ r)
  | SWF _ :: _ => Raise TypeError
  end.

Definition str (v : value) : outcome string :=
  match v with
  | Str s => Ok s
  | Fmt _ => Ok ""
  | SWF content => join_plain content
  end.

Definition len (v : value) : outcome Z :=
  match v with
  | Str s => Ok (Z.of_nat (String.length s))
  | Fmt _ => Ok 0
  | SWF content => let* s := join_plain content in Ok (Z.of_nat (String.length s))
  end.

(** Truth value: a [str] is true when non-empty, [Format.__bool__] is
    always true, and [StringWithFormatting] has no [__bool__], so Python
    falls back on [__len__]. *)
Definition truthy (v : value) : outcome bool :=
  match v with
  | Str s => Ok (negb (String.eqb s ""))
  | Fmt _ => Ok true
  | SWF _ => let* n := len v in Ok (negb (n =? 0))
  end.

(** ** Concatenation *)

(** [a + y] for a [str] [a].  [str.__add__] declines any right operand
    that is not a [str] and Python then calls the operand's [__radd__]:
    [Format.__radd__] builds the two-segment rich text, and
    [StringWithFormatting.__radd__] looks at [self._content[0]]. *)
Fixpoint str_add (a : string) (y : value) {struct y} : outcome value :=
  match y with
  | Str b => Ok (Str (a +:+ b))
  | Fmt _ => Ok (StringWithFormatting (OfSeq [Str a; y]))
  | SWF content =>
      match content with
      | [] => Raise IndexError
      | first :: rest =>
          if is_format first then
            Ok (StringWithFormatting (OfSeq (Str a :: content)))
          else
            let* merged := str_add a first in
            Ok (StringWithFormatting (OfSeq (merged :: rest)))
      end
  end.

(** [Format.__add__] *)
Definition format_add (f : Format) (other : value) : outcome value :=
  match other with
  | SWF content => Ok (StringWithFormatting (OfSeq (Fmt f :: content)))
  | _ => Ok (StringWithFormatting (OfSeq [Fmt f; other]))
  end.

(** [self._content[:-1] + last(self._content[-1])], where [last] says
    what takes the place of the last segment; [self._content[-1]] raises
    [IndexError] on the empty tuple. *)
Definition at_last (last : value -> outcome (list value))
    : list value -> outcome (list value) :=
  fix go (content : list value) : outcome (list value) :=
    match content with
    | [] => Raise IndexError
    | [l] => last l
    | h :: t => let* r := go t in Ok (h :: r)
    end.

(** [x + y].  The third case is [StringWithFormatting.__add__].  In its
    last branch the test on the right operand looks at
    [other._content[-1]], and what is concatenated is
    [other._content[0]]. *)
Fixpoint add (x y : value) {struct x} : outcome value :=
  match x with
  | Str a => str_add a y
  | Fmt f => format_add f y
  | SWF content =>
      let* new_content :=
        match y with
        | Fmt _ => Ok (content ++ [y])
        | Str _ =>
            at_last
              (fun l =>
                 if is_format l then Ok [l; y]
                 else let* merged := add l y in Ok [merged])
              content
        | SWF other =>
            at_last
              (fun l =>
                 if is_format l then Ok (l :: other)
                 else
                   match last other with
                   | None => Raise IndexError
                   | Some other_last =>
                       if is_format other_last then Ok (l :: other)
                       else
                         match other with
                         | [] => Raise IndexError
                         | other_first :: other_rest =>
                             let* merged := add l other_first in
                             Ok (merged :: other_rest)
                         end
                   end)
              content
        end in
      Ok (StringWithFormatting (OfSeq new_content))
  end.

(** [Format.__call__]: [self + content_string + Format('normal')]. *)
Definition format_call (self : Format) (content_string : value) : outcome value :=
  let* x := add (Fmt self) content_string in
  add x (Fmt (PlainFormat "normal")).

(** [ParameterizingFormat.__call__] overrides it: the marker keeps the
    arguments and returns itself. *)
Definition parameterizing_call (self : Format) (args : list Z) : Format :=
  ParameterizingFormat (terminal_attribute self) (Some args).

(** ** Iteration *)

(** What iterating a value yields: one-character strings and markers. *)
Inductive item : Type :=
| Ch (c : ascii)
| Fm (f : Format).

Definition value_of_item (char : item) : value :=
  match char with
  | Ch c => Str (String c "")
  | Fm f => Fmt f
  end.

(** [len(char)] *)
Definition item_len (char : item) : Z :=
  match char with
  | Ch _ => 1
  | Fm _ => 0
  end.

(** [__iter__]: a [str] yields its characters, [Format.__iter__] is
    [iter([self])], and [StringWithFormatting.__iter__] iterates every
    segment in turn. *)
Fixpoint iter (v : value) : list item :=
  match v with
  | Str s => List.map Ch (list_ascii_of_string s)
  | Fmt f => [Fm f]
  | SWF content => concat (List.map iter content)
  end.

(** [_enumerate_chars]: each item with the number of visible characters
    seen up to and including it. *)
Fixpoint enumerate_from (num_chars : Z) (chars : list item) : list (Z * item) :=
  match chars with
  | [] => []
  | char :: rest =>
      let num_chars := num_chars + item_len char in
      (num_chars, char) :: enumerate_from num_chars rest
  end.

Definition _enumerate_chars (self : value) : list (Z * item) :=
  enumerate_from 0 (iter self).

(** ** Slicing *)

Definition nonempty (s : string) : bool := negb (String.eqb s "").

(** [if string: result.append(string)] *)
Definition flush (result : list value) (cur : string) : list value :=
  if nonempty cur then result ++ [Str cur] else result.

(** The [for] loop of [_get_slice], with its three accumulators; the
    loop returns what is passed to the constructor, either at [break] or
    when the items run out. *)
Fixpoint slice_loop (start stop : Z) (chars : list (Z * item))
    (result : list value) (cur : string) (first_format : list value)
    : list value :=
  match chars with
  | [] => result
  | (i, char) :: rest =>
      let '(result, cur, first_format) :=
        if (start <? i) && (i <=? stop) then
          match char with
          | Fm f => (flush result cur ++ [Fmt f], "", first_format)
          | Ch c => (result, cur +:+ String c "", first_format)
          end
        else
          match char with
          | Fm f => (result, cur, first_format ++ [Fmt f])
          | Ch _ => (result, cur, first_format)
          end in
      if i =? stop then flush (first_format ++ result) cur
      else slice_loop start stop rest result cur first_format
  end.

Definition _get_slice (self : value) (start stop : option Z) : outcome value :=
  let start := default 0 start in
  let* stop := match stop with Some j => Ok j | None => len self end in
  let* n := len self in
  let stop := Z.min stop n in
  Ok (StringWithFormatting
        (OfSeq (slice_loop start stop (_enumerate_chars self) [] "" []))).

(** Slicing of a built-in [str]: a negative bound counts from the end,
    and both bounds are clamped to the string. *)
Definition str_bound (n i : Z) : Z :=
  if i <? 0 then Z.max 0 (i + n) else Z.min i n.

Definition str_getslice (s : string) (start stop : option Z) : string :=
  let n := Z.of_nat (String.length s) in
  let lo := match start with Some i => str_bound n i | None => 0 end in
  let hi := match stop with Some j => str_bound n j | None => n end in
  String.substring (Z.to_nat lo) (Z.to_nat (hi - lo)) s.

(** [v[start:stop]]: [StringWithFormatting.__getitem__] with a slice,
    the built-in on a [str]; a [Format] is not subscriptable. *)
Definition getslice (v : value) (start stop : option Z) : outcome value :=
  match v with
  | Str s => Ok (Str (str_getslice s start stop))
  | Fmt _ => Raise TypeError
  | SWF _ => _get_slice v start stop
  end.

(** [s[index]] on a built-in [str]: a negative index counts from the
    end, and an index outside the string raises [IndexError]. *)
Definition str_getitem (s : string) (index : Z) : outcome string :=
  let n := Z.of_nat (String.length s) in
  let i := if index <? 0 then index + n else index in
  if (0 <=? i) && (i <? n) then Ok (String.substring (Z.to_nat i) 1 s)
  else Raise IndexError.

(** [v[index]] with an integer: [StringWithFormatting.__getitem__]
    answers with [str(self)[index]]. *)
Definition getitem (v : value) (index : Z) : outcome value :=
  match v with
  | Str s => let* c := str_getitem s index in Ok (Str c)
  | Fmt _ => Raise TypeError
  | SWF _ => let* s := str v in let* c := str_getitem s index in Ok (Str c)
  end.

(** ** TextWrapper *)

(** [string.whitespace], the characters [_chunk] breaks at. *)
Definition whitespace : list ascii :=
  [" "; "009"; "010"; "013"; "011"; "012"]%char.

Definition in_whitespace (c : ascii) : bool :=
  existsb (Ascii.eqb c) whitespace.

(** What [str.strip()] removes: the characters for which [str.isspace]
    holds.  Below 256 these are the six of [string.whitespace] (9 to 13
    and 32), the four separators 28 to 31, and the code points 133 and
    160. *)
Definition isspace (c : ascii) : bool :=
  let n := nat_of_ascii c in
  ((9 <=? n) && (n <=? 13) || (28 <=? n) && (n <=? 32)
   || (n =? 133) || (n =? 160))%nat.

Fixpoint str_lstrip (s : string) : string :=
  match s with
  | String c rest => if isspace c then str_lstrip rest else s
  | EmptyString => s
  end.

Fixpoint str_rstrip (s : string) : string :=
  match s with
  | String c rest =>
      let rest := str_rstrip rest in
      if isspace c && String.eqb rest "" then "" else String c rest
  | EmptyString => s
  end.

Definition str_strip (s : string) : string := str_rstrip (str_lstrip s).

Inductive char_type : Type :=
| format
| break
| char.

Global Instance char_type_eq_dec : EqDecision char_type.
Proof. solve_decision. Defined.

Definition char_type_of (c : item) : char_type :=
  match c with
  | Fm _ => format
  | Ch a => if in_whitespace a then break else char
  end.

(** The loop of the generator [_chunk], collected into a list the way
    [wrap] does with [list(self._chunk(text))]. *)
Fixpoint chunk_loop (chars : list item) (current_chunk : value)
    (previous_char_type : option char_type) : outcome (list value) :=
  match chars with
  | [] => Ok [current_chunk]
  | c :: rest =>
      let char_type := char_type_of c in
      if decide (Some char_type ≠ previous_char_type) then
        let* yielded := truthy current_chunk in
        let* more := chunk_loop rest (value_of_item c) (Some char_type) in
        Ok (if yielded then current_chunk :: more else more)
      else
        let* current_chunk := add current_chunk (value_of_item c) in
        chunk_loop rest current_chunk (Some char_type)
  end.

Definition _chunk (string_like : value) : outcome (list value) :=
  chunk_loop (iter string_like) (Str "") None.

(** The first loop of [_do_strip]: the indices to delete.  Only a [str]
    has a [strip] method. *)
Fixpoint strip_scan (chunks : list value) (iter_ del_chunks : list nat)
    : outcome (list nat) :=
  match iter_ with
  | [] => Ok del_chunks
  | i :: rest =>
      match chunks !! i with
      | None => Raise IndexError
      | Some chunk =>
          if is_format chunk then strip_scan chunks rest del_chunks
          else
            match chunk with
            | Str s =>
                if String.eqb (str_strip s) "" then
                  strip_scan chunks rest (del_chunks ++ [i])
                else Ok del_chunks
            | _ => Raise AttributeError
            end
      end
  end.

(** [del chunks[i]] *)
Definition del_item (i : nat) (chunks : list value) : outcome (list value) :=
  if decide (i < length chunks)%nat then Ok (delete i chunks)
  else Raise IndexError.

(** The second loop of [_do_strip]. *)
Fixpoint del_items (indices : list nat) (chunks : list value)
    : outcome (list value) :=
  match indices with
  | [] => Ok chunks
  | i :: rest => let* chunks := del_item i chunks in del_items rest chunks
  end.

Definition sorted (l : list nat) : list nat := merge_sort le l.

Definition _do_strip (chunks : list value) (iter_ : list nat)
    : outcome (list value) :=
  let* del_chunks := strip_scan chunks iter_ [] in
  del_items (reverse (sorted del_chunks)) chunks.

Definition _lstrip (chunks : list value) : outcome (list value) :=
  _do_strip chunks (seq 0 (length chunks)).

Definition _rstrip (chunks : list value) : outcome (list value) :=
  _do_strip chunks (reverse (seq 0 (length chunks))).

(** The inner [while chunks] loop of [wrap]: what is left of the queue,
    the line, its length and the length of the last chunk looked at. *)
Fixpoint pack (width : Z) (chunks current_line : list value)
    (current_line_length current_chunk_length : Z)
    : outcome (list value * list value * Z * Z) :=
  match chunks with
  | [] => Ok (chunks, current_line, current_line_length, current_chunk_length)
  | first :: rest =>
      let* current_chunk_length := len first in
      if current_line_length + current_chunk_length <=? width then
        pack width rest (current_line ++ [first])
          (current_line_length + current_chunk_length) current_chunk_length
      else
        Ok (chunks, current_line, current_line_length, current_chunk_length)
  end.

(** [chunks[0]] *)
Definition first_item (chunks : list value) : outcome value :=
  match chunks !! 0%nat with
  | Some chunk => Ok chunk
  | None => Raise IndexError
  end.

(** [functools.reduce(function, sequence, initial)] *)
Fixpoint reduce (function : value -> value -> outcome value)
    (sequence : list value) (initial : value) : outcome value :=
  match sequence with
  | [] => Ok initial
  | y :: rest => let* x := function initial y in reduce function rest x
  end.

(** One turn of the outer [while chunks] loop of [wrap], in two halves.
    First the queue is stripped on the left, chunks are moved to the
    line while they fit, and a chunk longer than a whole line is cut at
    the space that is left. *)
Definition fill_line (width : Z) (chunks : list value)
    : outcome (list value * list value) :=
  let* chunks := _lstrip chunks in
  let* (chunks, current_line, current_line_length, current_chunk_length) :=
    pack width chunks [] 0 0 in
  if width <? current_chunk_length then
    let space_left := width - current_line_length in
    let* first := first_item chunks in
    let* head := getslice first None (Some space_left) in
    let* first := first_item chunks in
    let* tail := getslice first (Some space_left) None in
    Ok (<[0%nat := tail]> chunks, current_line ++ [head])
  else Ok (chunks, current_line).

(** Then the line is stripped on the right and its chunks are added
    up; a line without chunks is the empty string. *)
Definition join_line (current_line : list value) : outcome value :=
  let* current_line := _rstrip current_line in
  match current_line with
  | first :: rest => reduce add rest first
  | [] => Ok (Str "")
  end.

(** The turn: the line that is appended to [result] and the queue that
    is left. *)
Definition wrap_line (width : Z) (chunks : list value)
    : outcome (value * list value) :=
  let* (chunks, current_line) := fill_line width chunks in
  let* line := join_line current_line in
  Ok (line, chunks).

(** The outer loop.  It need not end (see [wrap_width_0_diverges]), so
    it runs on fuel: [None] is fuel exhausted, [Some (Raise e)] an
    exception, [Some (Ok lines)] the list returned. *)
Fixpoint wrap_loop (fuel : nat) (width : Z) (chunks result : list value)
    : option (outcome (list value)) :=
  match chunks with
  | [] => Some (Ok result)
  | _ :: _ =>
      match fuel with
      | O => None
      | S fuel =>
          match wrap_line width chunks with
          | Raise e => Some (Raise e)
          | Ok (line, chunks) => wrap_loop fuel width chunks (result ++ [line])
          end
      end
  end.

(** [TextWrapper(width).wrap(text)], which is also the module-level
    [wrap(text, width)]. *)
Definition wrap (fuel : nat) (text : value) (width : Z)
    : option (outcome (list value)) :=
  match _chunk text with
  | Raise e => Some (Raise e)
  | Ok chunks => wrap_loop fuel width chunks []
  end.

(** ** Splitting *)

(** [s.split()] on a built-in [str], without a separator: the string
    is cut at runs of white space, and no piece is empty. *)
Fixpoint split_loop (cur : string) (s : string) : list string :=
  match s with
  | EmptyString => if nonempty cur then [cur] else []
  | String c rest =>
      if isspace c then
        if nonempty cur then cur :: split_loop "" rest
        else split_loop "" rest
      else split_loop (cur +:+ String c "") rest
  end.

Definition str_split (s : string) : list string := split_loop "" s.

(** [split()] without a separator: [Format.split] is [[self]], and
    [StringWithFormatting.split] extends the result with the pieces of
    every segment in turn ([maxsplit] is accepted and not used). *)
Fixpoint split (v : value) : list value :=
  match v with
  | Str s => List.map Str (str_split s)
  | Fmt f => [Fmt f]
  | SWF content => concat (List.map split content)
  end.

(** ** Rendering *)

(** The terminal is an external collaborator: [getattr(terminal, name)]
    gives the escape string of a capability, or fails. A parameterizing
    capability is called with the arguments. *)
Record Terminal : Type := {
  capability : string -> option string;
  parameterized : string -> list Z -> string
}.

(** [Format.draw] and [ParameterizingFormat.draw] *)
Definition format_draw (self : Format) (normal : string) (terminal : Terminal)
    : outcome string :=
  if String.eqb (terminal_attribute self) "normal" then
    match self with
    | ParameterizingFormat _ (Some (_ :: _)) => Raise TypeError
    | _ => Ok normal
    end
  else
    match capability terminal (terminal_attribute self) with
    | None => Raise AttributeError
    | Some formatting_string =>
        match self with
        | ParameterizingFormat a (Some (arg :: args)) =>
            Ok (parameterized terminal a (arg :: args))
        | _ => Ok formatting_string
        end
    end.

(** [StringWithFormatting.draw]: [str.join] over [_iter_for_draw].
    [join] first runs the generator to its end, so a marker that cannot
    be drawn is reported before a segment that is not a [str]. *)
Fixpoint draw_content (content : list value) (normal : string)
    (terminal : Terminal) : outcome string :=
  match content with
  | [] => Ok ""
  | Fmt f :: rest =>
      let* head := format_draw f normal terminal in
      let* tail := draw_content rest normal terminal in
      Ok (head +:+ tail)
  | Str s :: rest =>
      let* tail := draw_content rest normal terminal in
      Ok (s +:+ tail)
  | SWF _ :: rest =>
      let* _ := draw_content rest normal terminal in
      Raise TypeError
  end.

(** * Properties *)

(** ** Vocabulary for the statements *)

(** Visible length of a stream of items. *)
Fixpoint visible (its : list item) : Z :=
  match its with
  | [] => 0
  | c :: rest => item_len c + visible rest
  end.

(** The markers of a stream of items, in order. *)
Fixpoint markers (its : list item) : list Format :=
  match its with
  | [] => []
  | Fm f :: rest => f :: markers rest
  | Ch _ :: rest => markers rest
  end.

(** Everything that comes before the visible character of index [n]
    (counting from 0): [n] characters and every marker up to there,
    those right in front of that character included. *)
Fixpoint before_char (n : nat) (its : list item) : list item :=
  match its with
  | [] => []
  | Fm f :: rest => Fm f :: before_char n rest
  | Ch c :: rest =>
      match n with
      | O => []
      | S n => Ch c :: before_char n rest
      end
  end.

(** The rest: the stream from the visible character of index [n] on. *)
Fixpoint from_char (n : nat) (its : list item) : list item :=
  match its with
  | [] => []
  | Fm _ :: rest => from_char n rest
  | Ch c :: rest =>
      match n with
      | O => its
      | S n => from_char n rest
      end
  end.

(** The shortest prefix that holds [n] visible characters: it ends with
    the [n]-th of them. *)
Fixpoint upto_char (n : nat) (its : list item) : list item :=
  match n with
  | O => []
  | S m =>
      match its with
      | [] => []
      | Ch c :: rest => Ch c :: upto_char m rest
      | Fm f :: rest => Fm f :: upto_char n rest
      end
  end.

(** Segments built from items: consecutive characters are gathered into
    one run, closed by the next marker or by the end.  [result] and
    [cur] are the accumulators of [_get_slice]. *)
Fixpoint collect (result : list value) (cur : string) (its : list item)
    : list value :=
  match its with
  | [] => flush result cur
  | Ch c :: rest => collect result (cur +:+ String c "") rest
  | Fm f :: rest => collect (flush result cur ++ [Fmt f]) "" rest
  end.

(** No two adjacent segments are both plain-text runs. *)
Definition is_plain (v : value) : bool :=
  match v with
  | Str _ => true
  | _ => false
  end.


Definition content_of (v : value) : list value :=
  match v with
  | SWF content => content
  | _ => [v]
  end.

(** Whether the first, or the last, segment is a plain run. *)
Definition plain_head (content : list value) : bool :=
  match content with
  | v :: _ => is_plain v
  | [] => false
  end.

Definition plain_last (content : list value) : bool :=
  match last content with
  | Some v => is_plain v
  | None => false
  end.

(** A bound clamped to [[0, n]]. *)
Definition clamp (n x : Z) : Z := Z.max 0 (Z.min x n).

(** A chunk of [_chunk]: a string, a marker, or the rich text that two
    or more consecutive markers add up to. *)
Definition simple (v : value) : Prop :=
  match v with
  | SWF content => content <> [] /\ forallb is_format content = true
  | _ => True
  end.

(** A line of [wrap]: a string, a marker, or a well-formed rich text
    with at least one segment. *)
Definition flat (v : value) : Prop :=
  match v with
  | SWF content => content <> [] /\ forallb is_segment content = true
  | _ => True
  end.

(** Two operands on which the last test of [StringWithFormatting.__add__]
    and what it then concatenates agree: both end with a plain run only
    if the right one also starts with a plain run. *)
Definition branch_agrees (x y : value) : Prop :=
  match x, y with
  | SWF c, SWF d => plain_last c && plain_last d = true -> plain_head d = true
  | _, _ => True
  end.

(** What [_chunk] holds between two characters: the empty string before
    the first one, markers after a marker, a string after a character. *)
Definition chunk_state (current_chunk : value)
    (previous_char_type : option char_type) : Prop :=
  match previous_char_type with
  | None => current_chunk = Str ""
  | Some format => simple current_chunk /\ is_plain current_chunk = false
  | Some _ => is_plain current_chunk = true
  end.

(** Visible length of a list of chunks, and the measure that [wrap]
    decreases: one for each chunk, one for each visible character. *)
Fixpoint total (chunks : list value) : Z :=
  match chunks with
  | [] => 0
  | chunk :: rest => visible (iter chunk) + total rest
  end.

Definition weight (chunks : list value) : Z :=
  total chunks + Z.of_nat (length chunks).

(** A line that fits into the width. *)
Definition fits (width : Z) (line : value) : Prop :=
  exists n, len line = Ok n /\ n <= width.

(** A string that [strip] empties. *)
Definition blank (s : string) : bool := String.eqb (str_strip s) "".

(** What [_lstrip] is meant to do, read from the front of the list:
    markers are stepped over, blank strings are dropped, and the first
    string with something in it ends the scan.  A chunk that is neither
    a marker nor a string has no [strip]. *)
Fixpoint strip_left (chunks : list value) : outcome (list value) :=
  match chunks with
  | [] => Ok []
  | Fmt f :: rest => let* rest := strip_left rest in Ok (Fmt f :: rest)
  | Str s :: rest => if blank s then strip_left rest else Ok chunks
  | SWF _ :: _ => Raise AttributeError
  end.

(** The indices that the first loop of [_do_strip] collects when it
    walks forward from index [k], and when it walks backward over a
    list given in reverse. *)
Fixpoint blanks (k : nat) (chunks : list value) : outcome (list nat) :=
  match chunks with
  | [] => Ok []
  | Fmt _ :: rest => blanks (S k) rest
  | Str s :: rest =>
      if blank s then let* d := blanks (S k) rest in Ok (k :: d) else Ok []
  | SWF _ :: _ => Raise AttributeError
  end.

Fixpoint blanks_back (reversed : list value) : outcome (list nat) :=
  match reversed with
  | [] => Ok []
  | Fmt _ :: rest => blanks_back rest
  | Str s :: rest =>
      if blank s then let* d := blanks_back rest in Ok (length rest :: d)
      else Ok []
  | SWF _ :: _ => Raise AttributeError
  end.

(** The visible characters of a stream of items, in order. *)
Fixpoint chars (its : list item) : list ascii :=
  match its with
  | [] => []
  | Ch c :: rest => c :: chars rest
  | Fm _ :: rest => chars rest
  end.

(** What is left of a stream of items when its white space is taken
    out: the markers and the characters that [strip] does not remove. *)
Definition is_content (c : item) : bool :=
  match c with
  | Ch a => negb (isspace a)
  | Fm _ => true
  end.

Definition content (its : list item) : list item :=
  List.filter is_content its.

(** Two markers side by side somewhere in the stream, and two markers
    side by side at its very end. *)
Fixpoint adjacent_markers (its : list item) : bool :=
  match its with
  | [] => false
  | Ch _ :: rest => adjacent_markers rest
  | Fm _ :: rest =>
      match rest with
      | Fm _ :: _ => true
      | _ => adjacent_markers rest
      end
  end.

Fixpoint ends_with_markers (its : list item) : bool :=
  match its with
  | [] => false
  | Ch _ :: rest => ends_with_markers rest
  | Fm _ :: rest =>
      match rest with
      | [Fm _] => true
      | _ => ends_with_markers rest
      end
  end.

(** The chunks that [_chunk] builds: a string, a marker, or the rich
    text of two or more markers; not empty, and all of one kind. *)
Definition chunk_shape (v : value) : Prop :=
  match v with
  | SWF content =>
      (2 <= length content)%nat /\ forallb is_format content = true
  | _ => True
  end.

Definition run_of (t : char_type) (v : value) : Prop :=
  chunk_shape v /\ iter v <> []
  /\ Forall (fun c => char_type_of c = t) (iter v).

Definition chunk_inv (current_chunk : value)
    (previous_char_type : option char_type) : Prop :=
  match previous_char_type with
  | None => current_chunk = Str ""
  | Some t => run_of t current_chunk
  end.

(** [pruned l l']: [l'] is [l] without some of its blank strings. *)
Inductive pruned : list value -> list value -> Prop :=
| pruned_nil : pruned [] []
| pruned_keep (x : value) (l l' : list value) :
    pruned l l' -> pruned (x :: l) (x :: l')
| pruned_drop (s : string) (l l' : list value) :
    blank s = true -> pruned l l' -> pruned (Str s :: l) l'.

(** The first string among the chunks, markers stepped over. *)
Fixpoint first_string (chunks : list value) : option string :=
  match chunks with
  | [] => None
  | Str s :: _ => Some s
  | _ :: rest => first_string rest
  end.

(** A piece of [split]: a marker, or a string that is not empty and
    holds no white space. *)
Definition word (s : string) : Prop :=
  s <> ""
  /\ forallb (fun c => negb (isspace c)) (list_ascii_of_string s) = true.

Definition piece (v : value) : Prop :=
  match v with
  | Str s => word s
  | Fmt _ => True
  | SWF _ => False
  end.

(** A string chunk in the queue of [wrap]: white space only, or no
    white space at all. *)
Definition uniform (v : value) : Prop :=
  match v with
  | Str s =>
      forallb in_whitespace (list_ascii_of_string s) = true
      \/ forallb (fun c => negb (in_whitespace c)) (list_ascii_of_string s)
         = true
  | _ => True
  end.

(** A line that neither starts nor ends with a character of
    [string.whitespace]. *)
Definition edge_ok (c : option ascii) : Prop :=
  match c with
  | Some c => in_whitespace c = false
  | None => True
  end.

Definition trimmed (line : value) : Prop :=
  edge_ok (head (chars (iter line))) /\ edge_ok (last (chars (iter line))).

(** What drawing amounts to, item by item. *)
Fixpoint draw_items (its : list item) (normal : string) (terminal : Terminal)
    : outcome string :=
  match its with
  | [] => Ok ""
  | Ch c :: rest =>
      let* tail := draw_items rest normal terminal in
      Ok (String c tail)
  | Fm f :: rest =>
      let* head := format_draw f normal terminal in
      let* tail := draw_items rest normal terminal in
      Ok (head +:+ tail)
  end.

(** A text of white space only: every item is a character of
    [string.whitespace], and no marker is among the items.  The empty
    text is one, whether a string or a rich text. *)
Definition whitespace_item (c : item) : bool :=
  match c with
  | Ch a => in_whitespace a
  | Fm _ => false
  end.

Definition whitespace_only (text : value) : bool :=
  forallb whitespace_item (iter text).

(** ** Strings *)

Lemma string_append_cons (c : ascii) (s t : string) :
  String c s +:+ t = String c (s +:+ t).
Proof. reflexivity. Qed.

Lemma string_append_nil_r (s : string) : s +:+ "" = s.
Proof.
  induction s as [|c s IH]; [done|]. by rewrite string_append_cons, IH.
Qed.

Lemma string_append_assoc (a b c : string) :
  (a +:+ b) +:+ c = a +:+ (b +:+ c).
Proof.
  induction a as [|x a IH]; [done|]. rewrite !string_append_cons. simpl.
  by rewrite IH.
Qed.

Lemma chars_append (a b : string) :
  list_ascii_of_string (a +:+ b)
  = list_ascii_of_string a ++ list_ascii_of_string b.
Proof.
  induction a as [|x a IH]; [done|]. rewrite !string_append_cons. simpl.
  by rewrite IH.
Qed.

Lemma nonempty_false (s : string) : nonempty s = false -> s = "".
Proof. by destruct s. Qed.

(** ** Results *)

Lemma bind_ok {A B : Type} (r : outcome A) (k : A -> outcome B) (b : B) :
  bind r k = Ok b -> exists a, r = Ok a /\ k a = Ok b.
Proof. destruct r as [a|e]; simpl; [eauto | discriminate]. Qed.

(** ** Length *)

Lemma visible_app (l k : list item) : visible (l ++ k) = visible l + visible k.
Proof. induction l as [|c l IH]; simpl; [done | rewrite IH; lia]. Qed.

Lemma visible_nonneg (l : list item) : 0 <= visible l.
Proof. induction l as [|[c|f] l IH]; simpl; lia. Qed.

Lemma visible_chars (s : string) :
  visible (List.map Ch (list_ascii_of_string s)) = Z.of_nat (String.length s).
Proof. induction s as [|c s IH]; simpl; [done | rewrite IH; lia]. Qed.

Lemma iter_SWF_cons (v : value) (content : list value) :
  iter (SWF (v :: content)) = iter v ++ iter (SWF content).
Proof. done. Qed.

Lemma iter_SWF_app (c d : list value) :
  iter (SWF (c ++ d)) = iter (SWF c) ++ iter (SWF d).
Proof. simpl. by rewrite List.map_app, concat_app. Qed.

(** On segments, [str] gathers exactly the visible characters. *)
Lemma join_plain_segments (content : list value) :
  forallb is_segment content = true ->
  exists s, join_plain content = Ok s
    /\ List.map Ch (list_ascii_of_string s)
       = filter (fun c => bool_decide (item_len c = 1)) (iter (SWF content)).
Proof.
  induction content as [|[s|f|c] content IH]; simpl; intros Hwf.
  - by exists "".
  - destruct (IH Hwf) as (r & -> & Hr). exists (s +:+ r). split; [done|].
    rewrite chars_append, List.map_app, Hr, filter_app. f_equal.
    clear. induction (list_ascii_of_string s) as [|a l IHl]; simpl; [done|].
    rewrite filter_cons. simpl. by rewrite <- IHl.
  - destruct (IH Hwf) as (r & -> & Hr). exists r. split; [done|].
    by rewrite Hr.
  - discriminate.
Qed.

Lemma visible_filter (its : list item) :
  visible (filter (fun c => bool_decide (item_len c = 1)) its) = visible its.
Proof.
  induction its as [|[c|f] its IH]; [done| |].
  - rewrite filter_cons. simpl. rewrite IH. done.
  - rewrite filter_cons. simpl. rewrite IH. done.
Qed.

Lemma len_well_formed (t : value) :
  well_formed t -> len t = Ok (visible (iter t)).
Proof.
  destruct t as [s|f|content]; simpl; [done..|]. intros Hwf.
  destruct (join_plain_segments content Hwf) as (s & -> & Hs). simpl.
  f_equal. rewrite <- visible_chars, Hs. apply visible_filter.
Qed.

(** ** Items before, from and up to a visible character *)

Lemma before_from_char (n : nat) (its : list item) :
  its = before_char n its ++ from_char n its.
Proof.
  revert n. induction its as [|[c|f] its IH]; intros n; simpl; [done| |].
  - destruct n as [|n]; [done|]. simpl. by rewrite <- IH.
  - by rewrite <- IH.
Qed.

Lemma from_char_head (n : nat) (its : list item) :
  Z.of_nat n < visible its ->
  exists c rest, from_char n its = Ch c :: rest
    /\ visible (from_char n its) = visible its - Z.of_nat n.
Proof.
  revert n. induction its as [|[c|f] its IH]; intros n; simpl.
  - lia.
  - destruct n as [|n]; intros Hn.
    + exists c, its. split; [done|]. simpl. lia.
    + destruct (IH n) as (c' & rest & Hc & Hv); [lia|].
      exists c', rest. split; [done|]. lia.
  - intros Hn. destruct (IH n) as (c' & rest & Hc & Hv); [lia|].
    exists c', rest. split; [done|]. lia.
Qed.

Lemma visible_before_char (n : nat) (its : list item) :
  Z.of_nat n <= visible its -> visible (before_char n its) = Z.of_nat n.
Proof.
  revert n. induction its as [|[c|f] its IH]; intros n; simpl.
  - lia.
  - destruct n as [|n]; intros Hn; [done|]. simpl. rewrite IH; lia.
  - intros Hn. rewrite IH; lia.
Qed.

Lemma visible_upto_char (n : nat) (its : list item) :
  Z.of_nat n <= visible its -> visible (upto_char n its) = Z.of_nat n.
Proof.
  revert n. induction its as [|[c|f] its IH]; intros n Hn.
  - simpl in Hn. by destruct n; [|lia].
  - destruct n as [|n]; [done|]. simpl in *. rewrite IH; lia.
  - destruct n as [|n]; [done|]. simpl in *. rewrite (IH (S n)) by lia. lia.
Qed.

Lemma upto_char_0 (its : list item) : upto_char 0 its = [].
Proof. by destruct its. Qed.

Lemma upto_char_prefix (n : nat) (its : list item) :
  exists post, its = upto_char n its ++ post.
Proof.
  revert n. induction its as [|[c|f] its IH]; intros n.
  - exists []. by destruct n.
  - destruct n as [|n]; [by eexists|]. destruct (IH n) as [post Hp].
    exists post. simpl. by rewrite <- Hp.
  - destruct n as [|n]; [by eexists|]. destruct (IH (S n)) as [post Hp].
    exists post. simpl. simpl in Hp. by rewrite <- Hp.
Qed.

(** ** Gathering items into segments *)

Lemma flush_app (p result : list value) (cur : string) :
  flush (p ++ result) cur = p ++ flush result cur.
Proof. unfold flush. destruct (nonempty cur); [by rewrite app_assoc | done]. Qed.

Lemma collect_app (p result : list value) (cur : string) (its : list item) :
  collect (p ++ result) cur its = p ++ collect result cur its.
Proof.
  revert result cur. induction its as [|[c|f] its IH]; intros result cur; simpl.
  - apply flush_app.
  - apply IH.
  - rewrite flush_app, <- app_assoc. apply IH.
Qed.

Lemma iter_flush (result : list value) (cur : string) :
  iter (SWF (flush result cur))
  = iter (SWF result) ++ List.map Ch (list_ascii_of_string cur).
Proof.
  unfold flush. destruct (nonempty cur) eqn:E.
  - rewrite iter_SWF_app. simpl. by rewrite app_nil_r.
  - apply nonempty_false in E as ->. simpl. by rewrite app_nil_r.
Qed.

(** The segments hold the items they were built from, and nothing else. *)
Lemma iter_collect (result : list value) (cur : string) (its : list item) :
  iter (SWF (collect result cur its))
  = iter (SWF result) ++ List.map Ch (list_ascii_of_string cur) ++ its.
Proof.
  revert result cur. induction its as [|[c|f] its IH]; intros result cur; simpl collect.
  - by rewrite iter_flush, app_nil_r.
  - rewrite IH, chars_append, List.map_app, <- app_assoc. done.
  - rewrite IH, iter_SWF_app, iter_flush, <- !app_assoc. done.
Qed.

Lemma segments_flush (result : list value) (cur : string) :
  forallb is_segment result = true ->
  forallb is_segment (flush result cur) = true.
Proof.
  intros H. unfold flush. destruct (nonempty cur); [|done].
  by rewrite forallb_app, H.
Qed.

Lemma segments_collect (result : list value) (cur : string) (its : list item) :
  forallb is_segment result = true ->
  forallb is_segment (collect result cur its) = true.
Proof.
  revert result cur. induction its as [|[c|f] its IH]; intros result cur H; simpl.
  - by apply segments_flush.
  - by apply IH.
  - apply IH. by rewrite forallb_app, segments_flush.
Qed.

Lemma segments_markers (fs : list Format) :
  forallb is_segment (List.map Fmt fs) = true.
Proof. induction fs as [|f fs IH]; simpl; [done | by rewrite IH]. Qed.

Lemma iter_markers (fs : list Format) :
  iter (SWF (List.map Fmt fs)) = List.map Fm fs.
Proof.
  induction fs as [|f fs IH]; [done|].
  change (iter (SWF (Fmt f :: List.map Fmt fs)) = Fm f :: List.map Fm fs).
  by rewrite iter_SWF_cons, IH.
Qed.

(** ** The loop of [_get_slice] *)

Ltac step_slice_loop :=
  simpl enumerate_from; simpl slice_loop; simpl item_len;
  repeat match goal with
  | |- context [?a <? ?b] => destruct (Z.ltb_spec a b); try lia
  | |- context [?a <=? ?b] => destruct (Z.leb_spec a b); try lia
  | |- context [?a =? ?b] => destruct (Z.eqb_spec a b); try lia
  end; simpl andb; cbv iota beta.

(** Past [stop] nothing is taken and the loop never breaks. *)
Lemma slice_loop_past (start stop num : Z) (its : list item)
    (result : list value) (cur : string) (first_format : list value) :
  stop < num ->
  slice_loop start stop (enumerate_from num its) result cur first_format
  = result.
Proof.
  revert num first_format.
  induction its as [|[c|f] its IH]; intros num first_format Hnum; [done|..];
    step_slice_loop; apply IH; lia.
Qed.

(** Up to [start] the loop only remembers the markers. *)
Lemma slice_loop_skip (start stop num : Z) (its : list item)
    (result : list value) (cur : string) (first_format : list value) :
  num <= start -> start < stop ->
  slice_loop start stop (enumerate_from num its) result cur first_format
  = slice_loop start stop
      (enumerate_from start (from_char (Z.to_nat (start - num)) its))
      result cur
      (first_format
       ++ List.map Fmt (markers (before_char (Z.to_nat (start - num)) its))).
Proof.
  revert num first_format.
  induction its as [|[c|f] its IH]; intros num first_format Hnum Hstop.
  - done.
  - destruct (Z.to_nat (start - num)) as [|a] eqn:Ha.
    + assert (num = start) as -> by lia. simpl from_char. simpl before_char.
      simpl markers. simpl List.map. by rewrite app_nil_r.
    + step_slice_loop. rewrite IH by lia.
      replace (Z.to_nat (start - (num + 1))) with a by lia. done.
  - step_slice_loop. rewrite Z.add_0_r. rewrite IH by lia.
    simpl. by rewrite <- app_assoc.
Qed.

(** From there to the [stop]-th character everything is taken. *)
Lemma slice_loop_take (start stop num : Z) (its : list item)
    (result : list value) (cur : string) (first_format : list value) :
  start <= num -> num < stop -> stop <= num + visible its ->
  (start = num -> exists c rest, its = Ch c :: rest) ->
  slice_loop start stop (enumerate_from num its) result cur first_format
  = first_format
    ++ collect result cur (upto_char (Z.to_nat (stop - num)) its).
Proof.
  revert num result cur.
  induction its as [|[c|f] its IH]; intros num result cur Hstart Hnum Hstop Hhead.
  - simpl in Hstop. lia.
  - destruct (Z.to_nat (stop - num)) as [|k] eqn:Hk; [lia|].
    simpl in Hstop. step_slice_loop.
    + assert (k = O) as -> by lia. simpl. rewrite upto_char_0. simpl.
      apply flush_app.
    + rewrite IH; [|lia..|intros; lia].
      replace (Z.to_nat (stop - (num + 1))) with k by lia. done.
  - assert (start < num).
    { destruct (decide (start = num)) as [E|]; [|lia].
      destruct (Hhead E) as (? & ? & ?). discriminate. }
    destruct (Z.to_nat (stop - num)) as [|k] eqn:Hk; [lia|].
    simpl in Hstop. step_slice_loop. rewrite Z.add_0_r.
    rewrite IH; [|lia..|intros; lia]. rewrite Hk. done.
Qed.

(** A non-empty slice inside the text: the markers before its first
    character, then the segments of the stretch it covers. *)
Lemma slice_loop_range (start stop : Z) (its : list item) :
  0 <= start -> start < stop -> stop <= visible its ->
  slice_loop start stop (enumerate_from 0 its) [] "" []
  = List.map Fmt (markers (before_char (Z.to_nat start) its))
    ++ collect [] ""
         (upto_char (Z.to_nat (stop - start)) (from_char (Z.to_nat start) its)).
Proof.
  intros H0 Hlt Hstop. rewrite slice_loop_skip by lia.
  rewrite Z.sub_0_r. simpl app.
  destruct (from_char_head (Z.to_nat start) its) as (c & rest & Hc & Hv); [lia|].
  rewrite slice_loop_take; [done|lia..|eauto].
Qed.

(** When the bounds leave nothing in between, the lower bound plays no
    part. *)
Lemma slice_loop_empty_range (start start' stop : Z) (chars : list (Z * item))
    (result : list value) (cur : string) (first_format : list value) :
  stop <= start -> stop <= start' ->
  slice_loop start stop chars result cur first_format
  = slice_loop start' stop chars result cur first_format.
Proof.
  intros H H'. revert first_format.
  induction chars as [|[i [c|f]] chars IH]; intros first_format; [done|..];
    step_slice_loop; done || apply IH.
Qed.

(** ... and the loop returns markers only. *)
Lemma slice_loop_empty_markers (start stop : Z) (chars : list (Z * item))
    (first_format : list value) :
  stop <= start ->
  forallb is_format first_format = true ->
  forallb is_format (slice_loop start stop chars [] "" first_format) = true.
Proof.
  intros H. revert first_format.
  induction chars as [|[i [c|f]] chars IH]; intros first_format Hff; [done|..];
    step_slice_loop; unfold flush; simpl; rewrite ?app_nil_r;
    repeat first
      [ done | apply IH
      | rewrite forallb_app; apply andb_true_iff; split ].
Qed.

Lemma collect_leading_markers (k : nat) (its : list item) :
  collect [] "" (upto_char (S k) its)
  = List.map Fmt (markers (before_char 0 its))
    ++ collect [] "" (upto_char (S k) (from_char 0 its)).
Proof.
  induction its as [|[c|f] its IH]; [done..|].
  change (upto_char (S k) (Fm f :: its)) with (Fm f :: upto_char (S k) its).
  simpl. rewrite (collect_app [Fmt f] []), IH. done.
Qed.

Lemma join_plain_markers (content : list value) :
  forallb is_format content = true -> join_plain content = Ok "".
Proof.
  induction content as [|[s|f|c] content IH]; simpl; intros H;
    [done | discriminate | by apply IH | discriminate].
Qed.

Lemma get_slice_well_formed (t : value) (i j : Z) :
  well_formed t ->
  _get_slice t (Some i) (Some j)
  = Ok (SWF (slice_loop i (Z.min j (visible (iter t)))
               (enumerate_from 0 (iter t)) [] "" [])).
Proof. intros Hwf. unfold _get_slice. by rewrite len_well_formed. Qed.

Lemma getslice_well_formed (t : value) (i j : option Z) :
  well_formed t -> getslice t i j = _get_slice t i j.
Proof. by destruct t. Qed.


(** C3. For a well-formed rich text [t] of visible length [n] and
    bounds [0 <= i <= j <= n], the slice [t[i:j]] exists and its visible
    length is exactly [j - i]. *)
Theorem slice_length (t : value) (n i j : Z) :
  well_formed t -> len t = Ok n ->
  0 <= i -> i <= j -> j <= n ->
  exists s, getslice t (Some i) (Some j) = Ok s /\ len s = Ok (j - i).
Proof.
  intros Hwf Hlen Hi Hij Hj.
  rewrite len_well_formed in Hlen by done. injection Hlen as <-.
  rewrite getslice_well_formed, get_slice_well_formed by done.
  rewrite Z.min_l by done. eexists. split; [done|].
  destruct (decide (i = j)) as [->|Hne].
  - simpl. rewrite join_plain_markers; [simpl; f_equal; lia|].
    by apply slice_loop_empty_markers.
  - rewrite slice_loop_range by lia.
    rewrite len_well_formed.
    + rewrite iter_SWF_app, iter_markers, iter_collect, visible_app. simpl.
      destruct (from_char_head (Z.to_nat i) (iter t)) as (c & r & _ & Hv); [lia|].
      rewrite visible_upto_char by lia. f_equal.
      assert (visible (List.map Fm (markers (before_char (Z.to_nat i) (iter t)))) = 0) as ->; [|lia].
      induction (markers _) as [|f fs IH]; simpl; [done | by rewrite IH].
    + simpl. rewrite forallb_app, segments_markers.
      by apply segments_collect.
Qed.

Lemma slice_length_witness :
  exists s, getslice (SWF [Fmt (PlainFormat "bold"); Str "hello";
                           Fmt (PlainFormat "normal"); Str " world"])
              (Some 2) (Some 8) = Ok s
    /\ len s = Ok (8 - 2).
Proof. apply (slice_length _ 11); [reflexivity | reflexivity | lia..]. Defined.

(** C4, as the code has it: for a non-empty slice, [0 <= i < j <= n].
    Write the items of [t] as [before ++ Ch c :: mid ++ post], where
    [before] is everything in front of the visible character of index
    [i] and [Ch c :: mid] is the stretch that ends with the [j]-th
    visible character.  The slice [t[i:j]] consists of every marker of
    [before], in order, followed by that stretch unchanged: the markers
    inside the range stay in front of the characters they precede. *)
Theorem slice_markers (t : value) (n i j : Z) :
  well_formed t -> len t = Ok n ->
  0 <= i -> i < j -> j <= n ->
  let before := before_char (Z.to_nat i) (iter t) in
  exists s c mid post,
    getslice t (Some i) (Some j) = Ok s
    /\ iter t = before ++ Ch c :: mid ++ post
    /\ Ch c :: mid
       = upto_char (Z.to_nat (j - i)) (from_char (Z.to_nat i) (iter t))
    /\ visible (Ch c :: mid) = j - i
    /\ iter s = List.map Fm (markers before) ++ Ch c :: mid.
Proof.
  intros Hwf Hlen Hi Hij Hj before.
  rewrite len_well_formed in Hlen by done. injection Hlen as <-.
  rewrite getslice_well_formed, get_slice_well_formed by done.
  rewrite Z.min_l by done. rewrite slice_loop_range by lia.
  destruct (from_char_head (Z.to_nat i) (iter t)) as (c & r & Hc & Hv); [lia|].
  destruct (upto_char_prefix (Z.to_nat (j - i)) (from_char (Z.to_nat i) (iter t)))
    as [post Hpost].
  destruct (Z.to_nat (j - i)) as [|k] eqn:Hk; [lia|].
  rewrite Hc in Hpost |- *. simpl in Hpost. simpl upto_char.
  injection Hpost as Hpost.
  eexists _, c, (upto_char k r), post. split; [done|]. split; [|split; [done|split]].
  - rewrite (before_from_char (Z.to_nat i) (iter t)) at 1.
    fold before. by rewrite Hc, Hpost at 1.
  - change (Ch c :: upto_char k r) with (upto_char (S k) (Ch c :: r)).
    rewrite visible_upto_char; [lia|]. rewrite <- Hc. lia.
  - rewrite iter_SWF_app, iter_markers, iter_collect. done.
Qed.

Lemma slice_markers_witness :
  let t := SWF [Fmt (PlainFormat "bold"); Str "ab";
                Fmt (PlainFormat "underline"); Str "cd"] in
  let before := before_char (Z.to_nat 1) (iter t) in
  exists s c mid post,
    getslice t (Some 1) (Some 3) = Ok s
    /\ iter t = before ++ Ch c :: mid ++ post
    /\ Ch c :: mid
       = upto_char (Z.to_nat (3 - 1)) (from_char (Z.to_nat 1) (iter t))
    /\ visible (Ch c :: mid) = 3 - 1
    /\ iter s = List.map Fm (markers before) ++ Ch c :: mid.
Proof.
  apply (slice_markers _ 4); [reflexivity | reflexivity | lia..].
Defined.

(** C4 as stated also covers the empty slices [i = j], and there it
    fails: of two markers in front of the first character, [t[0:0]]
    keeps the first and loses the second. *)
Lemma slice_markers_empty_slice_counterexample :
  let bold := PlainFormat "bold" in
  let underline := PlainFormat "underline" in
  let t := SWF [Fmt bold; Fmt underline; Str "a"] in
  well_formed t
  /\ len t = Ok 1
  /\ markers (before_char (Z.to_nat 0) (iter t)) = [bold; underline]
  /\ getslice t (Some 0) (Some 0) = Ok (SWF [Fmt bold])
  /\ ~ In underline (markers (iter (SWF [Fmt bold]))).
Proof.
  repeat split. simpl. intros [H|[]]. discriminate.
Qed.

(** What an empty slice [t[i:i]] with [1 <= i <= n] is: the markers
    in front of the [i]-th visible character, and no more. *)
Lemma slice_loop_empty (start stop num : Z) (its : list item)
    (first_format : list value) :
  num < stop -> stop <= start -> stop <= num + visible its ->
  slice_loop start stop (enumerate_from num its) [] "" first_format
  = first_format
    ++ List.map Fmt (markers (upto_char (Z.to_nat (stop - num)) its)).
Proof.
  revert num first_format.
  induction its as [|[c|f] its IH]; intros num ff Hnum Hstart Hstop.
  - simpl in Hstop. lia.
  - destruct (Z.to_nat (stop - num)) as [|k] eqn:Hk; [lia|].
    simpl in Hstop. step_slice_loop.
    + assert (k = O) as -> by lia. simpl. rewrite upto_char_0.
      unfold flush. simpl. by rewrite !app_nil_r.
    + rewrite IH by lia.
      replace (Z.to_nat (stop - (num + 1))) with k by lia. done.
  - destruct (Z.to_nat (stop - num)) as [|k] eqn:Hk; [lia|].
    simpl in Hstop. step_slice_loop. rewrite Z.add_0_r.
    rewrite IH by lia. rewrite Hk. simpl. by rewrite <- app_assoc.
Qed.

Lemma getslice_empty (t : value) (n i : Z) :
  well_formed t -> len t = Ok n -> 1 <= i -> i <= n ->
  getslice t (Some i) (Some i)
  = Ok (SWF (List.map Fmt (markers (upto_char (Z.to_nat i) (iter t))))).
Proof.
  intros Hwf Hlen H1 Hn.
  rewrite len_well_formed in Hlen by done. injection Hlen as <-.
  rewrite getslice_well_formed, get_slice_well_formed by done.
  rewrite Z.min_l by done. rewrite slice_loop_empty by lia.
  by rewrite Z.sub_0_r.
Qed.

(** ** Bounds outside the text *)

Lemma slice_loop_negative_start (start stop : Z) (its : list item) :
  start < 0 -> 0 <= stop -> stop <= visible its ->
  slice_loop start stop (enumerate_from 0 its) [] "" []
  = slice_loop 0 stop (enumerate_from 0 its) [] "" [].
Proof.
  intros Hstart H0 Hstop. destruct (decide (stop = 0)) as [->|Hne].
  - destruct its as [|[c|f] its]; [done| |].
    + step_slice_loop. by rewrite !slice_loop_past by lia.
    + by step_slice_loop.
  - rewrite slice_loop_take; [|lia..]. rewrite Z.sub_0_r.
    rewrite slice_loop_range by lia. rewrite Z.sub_0_r.
    destruct (Z.to_nat stop) as [|k] eqn:Hk; [lia|].
    simpl app. apply collect_leading_markers.
Qed.

(** C8, as the code has it.  Slicing a well-formed rich text never
    raises, whatever the integers [i] and [j].  With [j >= 0] the slice
    is the one taken with both bounds clamped to [[0, n]]; with [j < 0]
    it is the rich text without segments. *)
Theorem slice_out_of_range (t : value) (n i j : Z) :
  well_formed t -> len t = Ok n ->
  (exists s, getslice t (Some i) (Some j) = Ok s)
  /\ (0 <= j ->
      getslice t (Some i) (Some j)
      = getslice t (Some (clamp n i)) (Some (clamp n j)))
  /\ (j < 0 -> getslice t (Some i) (Some j) = Ok (SWF [])).
Proof.
  intros Hwf Hlen.
  rewrite len_well_formed in Hlen by done. injection Hlen as <-.
  pose proof (visible_nonneg (iter t)) as Hn.
  rewrite !getslice_well_formed, !get_slice_well_formed by done.
  split; [by eexists|]. split.
  - intros Hj. do 2 f_equal. unfold clamp.
    replace (Z.min (Z.max 0 (Z.min j (visible (iter t)))) (visible (iter t)))
      with (Z.min j (visible (iter t))) by lia.
    set (stop := Z.min j (visible (iter t))).
    destruct (Z.le_gt_cases stop i) as [Hge|Hlt].
    + apply slice_loop_empty_range; lia.
    + destruct (Z.le_gt_cases 0 i) as [Hpos|Hneg].
      * by replace (Z.max 0 (Z.min i (visible (iter t)))) with i by lia.
      * replace (Z.max 0 (Z.min i (visible (iter t)))) with 0 by lia.
        apply slice_loop_negative_start; lia.
  - intros Hj. do 2 f_equal. apply slice_loop_past. lia.
Qed.

Lemma slice_out_of_range_witness :
  let t := SWF [Fmt (PlainFormat "bold"); Str "hello"] in
  (exists s, getslice t (Some (-2)) (Some 9) = Ok s)
  /\ (0 <= 9 ->
      getslice t (Some (-2)) (Some 9)
      = getslice t (Some (clamp 5 (-2))) (Some (clamp 5 9)))
  /\ (9 < 0 -> getslice t (Some (-2)) (Some 9) = Ok (SWF [])).
Proof. apply (slice_out_of_range _ 5); reflexivity. Defined.

(** C8 as stated fails for a negative upper bound: the text starts
    with a marker, [t[-3:-1]] has no segment at all, and the slice with
    both bounds clamped, [t[0:0]], holds that marker. *)
Lemma slice_clamp_counterexample :
  let t := SWF [Fmt (PlainFormat "bold"); Str "a"] in
  well_formed t
  /\ len t = Ok 1
  /\ getslice t (Some (-3)) (Some (-1)) = Ok (SWF [])
  /\ getslice t (Some (clamp 1 (-3))) (Some (clamp 1 (-1)))
     = Ok (SWF [Fmt (PlainFormat "bold")])
  /\ getslice t (Some (-3)) (Some (-1))
     <> getslice t (Some (clamp 1 (-3))) (Some (clamp 1 (-1))).
Proof. repeat split. discriminate. Qed.

(** ** Canonical form *)


Lemma plain_last_snoc (content : list value) (v : value) :
  plain_last (content ++ [v]) = is_plain v.
Proof. unfold plain_last. by rewrite last_snoc. Qed.







(** ** Concatenation *)

Lemma bind_ret {A : Type} (r : outcome A) : bind r Ok = r.
Proof. by destruct r. Qed.

Lemma at_last_snoc (f : value -> outcome (list value)) (c : list value)
    (l : value) :
  at_last f (c ++ [l]) = let* r := f l in Ok (c ++ r).
Proof.
  induction c as [|h c IH].
  - simpl. by rewrite bind_ret.
  - change (at_last f ((h :: c) ++ [l]))
      with (match c ++ [l] with
            | [] => f h
            | _ :: _ => let* r := at_last f (c ++ [l]) in Ok (h :: r)
            end).
    destruct (c ++ [l]) as [|x k] eqn:E; [by destruct c|].
    rewrite IH. by destruct (f l).
Qed.

Lemma format_is_segment (content : list value) :
  forallb is_format content = true -> forallb is_segment content = true.
Proof.
  induction content as [|[s|f|c] content IH]; simpl; intros H;
    [done | discriminate | by apply IH | discriminate].
Qed.

Lemma simple_flat (v : value) : simple v -> flat v.
Proof.
  destruct v as [s|f|c]; [done..|]. intros [Hne Hf].
  split; [done | by apply format_is_segment].
Qed.

Lemma iter_Str_append (a b : string) :
  iter (Str (a +:+ b)) = iter (Str a) ++ iter (Str b).
Proof. simpl. by rewrite chars_append, List.map_app. Qed.

Lemma iter_SWF_nil : iter (SWF []) = [].
Proof. done. Qed.

Local Arguments iter : simpl never.

Ltac iter_norm :=
  simpl;
  rewrite ?iter_SWF_app, ?iter_SWF_cons, ?iter_SWF_nil, ?iter_Str_append,
    ?app_nil_r, <- ?app_assoc;
  done.

(** Where [+] works: a line so far plus one more chunk.  The sum is
    again a line, made of the items of both, in order. *)
Lemma add_flat_simple (x y : value) :
  flat x -> simple y ->
  exists z, add x y = Ok z /\ flat z /\ iter z = iter x ++ iter y.
Proof.
  intros Hx Hy. destruct x as [a|f|c].
  - destruct y as [b|g|d].
    + eexists. split; [done|]. split; [done|]. iter_norm.
    + eexists. split; [done|]. split; [done|]. iter_norm.
    + destruct Hy as [Hne Hf]. destruct d as [|[b|g|e] d]; try done.
      eexists. split; [done|]. split; [|iter_norm].
      split; [done|]. simpl. by apply format_is_segment.
  - destruct y as [b|g|d].
    + eexists. split; [done|]. split; [done|]. iter_norm.
    + eexists. split; [done|]. split; [done|]. iter_norm.
    + destruct Hy as [Hne Hf]. eexists. split; [done|]. split; [|iter_norm].
      split; [done|]. simpl. by apply format_is_segment.
  - destruct Hx as [Hne Hseg].
    destruct c as [|l c _] using rev_ind; [done|]. clear Hne.
    rewrite forallb_app in Hseg. apply andb_prop in Hseg as [Hc Hl].
    destruct y as [b|g|d].
    + change (add (SWF (c ++ [l])) (Str b))
        with (let* nc := at_last
                (fun l => if is_format l then Ok [l; Str b]
                          else let* merged := add l (Str b) in Ok [merged])
                (c ++ [l]) in Ok (SWF nc)).
      rewrite at_last_snoc. destruct l as [a|g|e]; [| |done]; simpl.
      * eexists. split; [done|]. split.
        -- split; [by destruct c|]. by rewrite forallb_app, Hc.
        -- iter_norm.
      * eexists. split; [done|]. split.
        -- split; [by destruct c|]. by rewrite forallb_app, Hc.
        -- iter_norm.
    + eexists. split; [done|]. split.
      * split; [by destruct c|]. by rewrite !forallb_app, Hc, Hl.
      * iter_norm.
    + destruct Hy as [Hne Hf].
      change (add (SWF (c ++ [l])) (SWF d))
        with (let* nc := at_last
                (fun l =>
                   if is_format l then Ok (l :: d)
                   else
                     match last d with
                     | None => Raise IndexError
                     | Some other_last =>
                         if is_format other_last then Ok (l :: d)
                         else
                           match d with
                           | [] => Raise IndexError
                           | other_first :: other_rest =>
                               let* merged := add l other_first in
                               Ok (merged :: other_rest)
                           end
                     end)
                (c ++ [l]) in Ok (SWF nc)).
      rewrite at_last_snoc.
      assert ((if is_format l then Ok (l :: d)
                 else match last d with
                      | None => Raise IndexError
                      | Some other_last =>
                          if is_format other_last then Ok (l :: d)
                          else match d with
                               | [] => Raise IndexError
                               | other_first :: other_rest =>
                                   let* merged := add l other_first in
                                   Ok (merged :: other_rest)
                               end
                      end) = Ok (l :: d)) as ->.
      { destruct (is_format l); [done|].
        destruct d as [|d0 d] using rev_ind; [done|]. rewrite last_snoc.
        rewrite forallb_app in Hf. apply andb_prop in Hf as [_ Hd0].
        simpl in Hd0. apply andb_prop in Hd0 as [-> _]. done. }
      simpl. eexists. split; [done|]. split.
      * split; [by destruct c|].
        rewrite forallb_app, Hc. simpl in Hl |- *.
        apply andb_prop in Hl as [-> _]. by apply format_is_segment.
      * iter_norm.
Qed.


Lemma add_snoc_SWF (c : list value) (l : value) (d : list value) :
  add (SWF (c ++ [l])) (SWF d)
  = if is_format l then Ok (SWF (c ++ l :: d))
    else
      match last d with
      | None => Raise IndexError
      | Some other_last =>
          if is_format other_last then Ok (SWF (c ++ l :: d))
          else
            match d with
            | [] => Raise IndexError
            | other_first :: other_rest =>
                let* merged := add l other_first in
                Ok (SWF (c ++ merged :: other_rest))
            end
      end.
Proof.
  change (add (SWF (c ++ [l])) (SWF d))
    with (let* nc := at_last
            (fun l =>
               if is_format l then Ok (l :: d)
               else
                 match last d with
                 | None => Raise IndexError
                 | Some other_last =>
                     if is_format other_last then Ok (l :: d)
                     else
                       match d with
                       | [] => Raise IndexError
                       | other_first :: other_rest =>
                           let* merged := add l other_first in
                           Ok (merged :: other_rest)
                       end
                 end)
            (c ++ [l]) in Ok (SWF nc)).
  rewrite at_last_snoc. destruct (is_format l); [done|].
  destruct (last d) as [dl|]; [|done]. destruct (is_format dl); [done|].
  destruct d as [|d0 d']; [done|]. by destruct (add l d0).
Qed.

Lemma add_nil_Str (b : string) : add (SWF []) (Str b) = Raise IndexError.
Proof. done. Qed.

Lemma add_nil_SWF (d : list value) : add (SWF []) (SWF d) = Raise IndexError.
Proof. done. Qed.



Lemma segment_cases (v : value) :
  is_segment v = true -> (exists s, v = Str s) \/ (exists f, v = Fmt f).
Proof. destruct v; [eauto..|discriminate]. Qed.








(** ** Concatenation: where [+] goes wrong *)

Lemma len_flat (v : value) : flat v -> len v = Ok (visible (iter v)).
Proof.
  destruct v as [s|f|c]; intros H.
  - unfold iter. by rewrite visible_chars.
  - done.
  - apply len_well_formed, H.
Qed.

(** Where the operands have segments and the last branch of
    [StringWithFormatting.__add__] is not misled, [+] puts the items of
    the operands one after the other, so that the lengths add up. *)
Lemma add_flat_flat (x y : value) :
  flat x -> flat y -> branch_agrees x y ->
  exists z, add x y = Ok z /\ flat z /\ iter z = iter x ++ iter y.
Proof.
  intros Hx Hy Hxy. destruct y as [b|g|d]; [by apply add_flat_simple..|].
  destruct Hy as [Hnd Hsd]. destruct x as [a|f|c].
  - destruct d as [|first rest]; [done|]. simpl in Hsd.
    apply andb_prop in Hsd as [Hfirst Hrest].
    destruct (segment_cases first Hfirst) as [[e ->]|[g ->]]; simpl.
    + eexists. split; [done|]. split; [done|]. iter_norm.
    + eexists. split; [done|]. split; [|iter_norm]. done.
  - eexists. split; [done|]. split; [|iter_norm]. done.
  - destruct Hx as [Hnc Hsc]. simpl in Hxy.
    destruct c as [|l c _] using rev_ind; [done|]. clear Hnc.
    rewrite plain_last_snoc in Hxy.
    rewrite forallb_app in Hsc. apply andb_prop in Hsc as [Hsc Hl].
    simpl in Hl. apply andb_prop in Hl as [Hl _].
    rewrite add_snoc_SWF.
    assert (flat (SWF (c ++ l :: d))
            /\ iter (SWF (c ++ l :: d)) = iter (SWF (c ++ [l])) ++ iter (SWF d))
      as Hcat.
    { split; [|iter_norm]. split; [by destruct c|].
      rewrite forallb_app, Hsc. simpl. by rewrite Hl, Hsd. }
    destruct (segment_cases l Hl) as [[a ->]|[f ->]]; simpl in *;
      [|by eexists].
    destruct (last d) as [dl|] eqn:Hlast; [|by apply last_None in Hlast].
    assert (is_segment dl = true) as Hdl.
    { apply last_Some in Hlast as [d' ->]. rewrite forallb_app in Hsd.
      apply andb_prop in Hsd as [_ Hsd]. simpl in Hsd.
      by apply andb_prop in Hsd as [? _]. }
    destruct (segment_cases dl Hdl) as [[e ->]|[g ->]]; simpl;
      [|by eexists].
    unfold plain_last in Hxy. rewrite Hlast in Hxy. simpl in Hxy.
    destruct d as [|first rest]; [done|]. simpl in Hxy.
    destruct first as [e0| |]; try (by discriminate (Hxy eq_refl)).
    simpl in Hsd |- *. eexists. split; [done|]. split; [|iter_norm].
    split; [by destruct c|]. by rewrite forallb_app, Hsc.
Qed.

Lemma add_length (x y : value) :
  flat x -> flat y -> branch_agrees x y ->
  exists z n m, add x y = Ok z
    /\ len x = Ok n /\ len y = Ok m /\ len z = Ok (n + m).
Proof.
  intros Hx Hy Hxy.
  destruct (add_flat_flat x y Hx Hy Hxy) as (z & Hz & Hflat & Hiter).
  exists z, (visible (iter x)), (visible (iter y)).
  by rewrite !len_flat, Hiter, visible_app.
Qed.

(** C5, at the input where the code departs from it.  Both operands
    are well-formed rich texts of visible length 1 that start with a
    marker and end with a plain run.  [__add__] sees two plain runs at
    [self._content[-1]] and [other._content[-1]], and then concatenates
    [self._content[-1]] with [other._content[0]], a marker: the sum
    holds a rich text as a segment, and [len] of it raises. *)
Theorem add_length_failing_input :
  let a := SWF [Fmt (PlainFormat "bold"); Str "a"] in
  let b := SWF [Fmt (PlainFormat "underline"); Str "b"] in
  well_formed a /\ well_formed b
  /\ len a = Ok 1 /\ len b = Ok 1
  /\ add a b
     = Ok (SWF [Fmt (PlainFormat "bold");
                SWF [Str "a"; Fmt (PlainFormat "underline")];
                Str "b"])
  /\ (let* sum := add a b in len sum) = Raise TypeError.
Proof. repeat split. Qed.

(** C1, at two inputs where an operation raises.  The empty slice of a
    rich text has no segment, and concatenation onto it fails on
    [self._content[-1]].  A text that ends with two consecutive markers
    makes [_chunk] yield a rich text as its last chunk, and [_do_strip]
    calls [strip] on it. *)
Theorem operations_raise_failing_inputs :
  let bold := Fmt (PlainFormat "bold") in
  let underline := Fmt (PlainFormat "underline") in
  let t := SWF [Str "hello"] in
  let u := SWF [Str "x"; bold; underline] in
  well_formed t /\ well_formed u
  /\ getslice t (Some 0) (Some 0) = Ok (SWF [])
  /\ add (SWF []) (Str "x") = Raise IndexError
  /\ add (SWF []) t = Raise IndexError
  /\ _chunk u = Ok [Str "x"; SWF [bold; underline]]
  /\ forall fuel, wrap (S fuel) u 5 = Some (Raise AttributeError).
Proof. repeat split. Qed.

(** ** Wrapping: the scenario *)

Lemma wrap_loop_nil (fuel : nat) (width : Z) (result : list value) :
  wrap_loop fuel width [] result = Some (Ok result).
Proof. by destruct fuel. Qed.

Lemma wrap_loop_step (fuel : nat) (width : Z) (chunks result : list value) :
  chunks <> [] ->
  wrap_loop (S fuel) width chunks result
  = match wrap_line width chunks with
    | Raise e => Some (Raise e)
    | Ok (line, chunks) => wrap_loop fuel width chunks (result ++ [line])
    end.
Proof. by destruct chunks. Qed.

(** C10.  [bold("hello") + " " + "world"] is the rich text
    [(bold, "hello", normal, " world")]; wrapped at width 5 it gives
    exactly two lines.  The first is [(bold, "hello", normal)]: the bold
    marker, the text and the normal marker appended by the call.  The
    second is the plain string ["world"], which holds no marker at all,
    so nothing of it is drawn bold; drawing the first line asks the
    terminal for its bold capability and puts it in front of the text. *)
Theorem wrap_bold_hello_world :
  let bold := PlainFormat "bold" in
  let normal := PlainFormat "normal" in
  exists text line1 line2,
    (let* hello := format_call bold (Str "hello") in
     let* hello_ := add hello (Str " ") in
     add hello_ (Str "world")) = Ok text
    /\ text = SWF [Fmt bold; Str "hello"; Fmt normal; Str " world"]
    /\ (forall fuel, wrap (S (S fuel)) text 5 = Some (Ok [line1; line2]))
    /\ line1 = SWF [Fmt bold; Str "hello"; Fmt normal]
    /\ line2 = Str "world"
    /\ str line1 = Ok "hello"
    /\ markers (iter line1) = [bold; normal]
    /\ markers (iter line2) = []
    /\ (forall terminal plain,
          draw_content (content_of line1) plain terminal
          = match capability terminal "bold" with
            | Some escape => Ok (escape +:+ "hello" +:+ plain)
            | None => Raise AttributeError
            end).
Proof.
  intros bold normal.
  exists (SWF [Fmt bold; Str "hello"; Fmt normal; Str " world"]),
    (SWF [Fmt bold; Str "hello"; Fmt normal]), (Str "world").
  split; [reflexivity|]. split; [reflexivity|]. split.
  { intros fuel. unfold wrap.
    replace (_chunk _)
      with (Ok [Fmt bold; Str "hello"; Fmt normal; Str " "; Str "world"])
      by reflexivity.
    rewrite wrap_loop_step by discriminate.
    replace (wrap_line 5 _)
      with (Ok (SWF [Fmt bold; Str "hello"; Fmt normal],
                [Str " "; Str "world"])) by reflexivity.
    rewrite wrap_loop_step by discriminate.
    replace (wrap_line 5 _) with (Ok (Str "world", @nil value))
      by reflexivity.
    apply wrap_loop_nil. }
  do 5 (split; [reflexivity|]).
  intros terminal plain. subst bold normal.
  unfold content_of, draw_content, format_draw. simpl terminal_attribute.
  replace (String.eqb "bold" "normal") with false by reflexivity.
  replace (String.eqb "normal" "normal") with true by reflexivity.
  destruct (capability terminal "bold") as [escape|]; [|done].
  simpl. by rewrite string_append_nil_r.
Qed.

(** ** Chunks *)

Lemma chunk_state_simple (cur : value) (prev : option char_type) :
  chunk_state cur prev -> simple cur.
Proof.
  destruct prev as [[| |]|]; simpl.
  - by intros [? _].
  - by destruct cur.
  - by destruct cur.
  - by intros ->.
Qed.

Lemma truthy_simple (v : value) : simple v -> exists b, truthy v = Ok b.
Proof.
  destruct v as [s|f|c]; [by eexists..|]. intros [_ Hf].
  simpl. rewrite (join_plain_markers c Hf). by eexists.
Qed.

Lemma chunk_state_item (c : item) :
  chunk_state (value_of_item c) (Some (char_type_of c)).
Proof.
  destruct c as [a|f]; simpl; [|done]. by destruct (in_whitespace a).
Qed.

Lemma chunk_state_add (cur : value) (c : item) :
  chunk_state cur (Some (char_type_of c)) ->
  exists cur', add cur (value_of_item c) = Ok cur'
    /\ chunk_state cur' (Some (char_type_of c)).
Proof.
  destruct c as [a|f]; simpl.
  - intros H. assert (is_plain cur = true) as Hp by by destruct (in_whitespace a).
    destruct cur as [s| |]; try done. eexists. split; [done|].
    by destruct (in_whitespace a).
  - intros [Hs Hp]. destruct cur as [s|g|d]; [done| |].
    + eexists. split; [done|]. done.
    + destruct Hs as [Hne Hf]. eexists. split; [done|]. split; [|done].
      split; [by destruct d|]. by rewrite forallb_app, Hf.
Qed.

(** [_chunk] never raises, and its chunks are strings, markers and
    runs of markers. *)
Lemma chunk_loop_simple (chars : list item) (cur : value)
    (prev : option char_type) :
  chunk_state cur prev ->
  exists chunks, chunk_loop chars cur prev = Ok chunks /\ Forall simple chunks.
Proof.
  revert cur prev. induction chars as [|c chars IH]; intros cur prev Hst.
  - eexists. split; [done|]. constructor; [|done].
    by eapply chunk_state_simple.
  - simpl. destruct (decide (Some (char_type_of c) ≠ prev)) as [Hne|Heq].
    + destruct (truthy_simple cur) as [b ->];
        [by eapply chunk_state_simple|].
      destruct (IH _ _ (chunk_state_item c)) as (more & -> & Hmore).
      simpl. eexists. split; [done|]. destruct b; [|done].
      constructor; [by eapply chunk_state_simple | done].
    + assert (prev = Some (char_type_of c)) as -> by
        (destruct (decide (Some (char_type_of c) = prev)); [done|tauto]).
      destruct (chunk_state_add cur c Hst) as (cur' & -> & Hst').
      simpl. by apply IH.
Qed.

Lemma chunk_simple (text : value) :
  exists chunks, _chunk text = Ok chunks /\ Forall simple chunks.
Proof. by apply chunk_loop_simple. Qed.

(** ** Stripping *)

Lemma del_items_sublist (indices : list nat) (chunks chunks' : list value) :
  del_items indices chunks = Ok chunks' -> chunks' `sublist_of` chunks.
Proof.
  revert chunks. induction indices as [|i indices IH]; intros chunks; simpl.
  - by intros [= ->].
  - unfold del_item. destruct (decide (i < length chunks)%nat); [|done].
    simpl. intros H. etrans; [by apply IH|]. apply sublist_delete.
Qed.

Lemma do_strip_sublist (chunks chunks' : list value) (iter_ : list nat) :
  _do_strip chunks iter_ = Ok chunks' -> chunks' `sublist_of` chunks.
Proof.
  unfold _do_strip. intros (del & _ & H)%bind_ok.
  by eapply del_items_sublist.
Qed.

Lemma sublist_simple (l k : list value) :
  l `sublist_of` k -> Forall simple k -> Forall simple l.
Proof.
  induction 1 as [|x l k _ IH|x l k _ IH]; [done|..]; inversion_clear 1;
    [constructor|]; auto.
Qed.

Lemma total_nonneg (chunks : list value) : 0 <= total chunks.
Proof.
  induction chunks as [|v chunks IH]; simpl; [done|].
  pose proof (visible_nonneg (iter v)). lia.
Qed.

Lemma total_app (l k : list value) : total (l ++ k) = total l + total k.
Proof. induction l as [|v l IH]; simpl; [done | rewrite IH; lia]. Qed.

Lemma sublist_total (l k : list value) :
  l `sublist_of` k -> total l <= total k.
Proof.
  induction 1 as [|x l k _ IH|x l k _ IH]; simpl; [done|lia|].
  pose proof (visible_nonneg (iter x)). lia.
Qed.

Lemma sublist_weight (l k : list value) :
  l `sublist_of` k -> weight l <= weight k.
Proof.
  intros H. unfold weight. pose proof (sublist_total l k H).
  pose proof (sublist_length l k H). lia.
Qed.

(** ** One line *)

Lemma total_simple_len (chunk : value) :
  simple chunk -> len chunk = Ok (visible (iter chunk)).
Proof. intros H. by apply len_flat, simple_flat. Qed.

(** The inner loop moves a prefix of the queue to the line; the line
    then fits, and the chunk left in front, if any, is the one that
    did not. *)
Lemma pack_spec (width : Z) (chunks line : list value) (cll ccl : Z) :
  0 <= cll -> cll <= width -> ccl <= width -> Forall simple chunks ->
  exists popped rest ccl',
    pack width chunks line cll ccl
    = Ok (rest, line ++ popped, cll + total popped, ccl')
    /\ chunks = popped ++ rest
    /\ cll + total popped <= width
    /\ match rest with
       | [] => ccl' <= width
       | first :: _ =>
           ccl' = visible (iter first) /\ width < cll + total popped + ccl'
       end.
Proof.
  intros H0 Hcll Hccl Hall. revert line cll ccl H0 Hcll Hccl.
  induction Hall as [|first chunks Hfirst Hall IH]; intros line cll ccl H0 Hcll Hccl.
  - exists [], [], ccl. simpl. rewrite app_nil_r, Z.add_0_r. done.
  - simpl. rewrite (total_simple_len first Hfirst). simpl.
    pose proof (visible_nonneg (iter first)) as Hn.
    destruct (Z.leb_spec (cll + visible (iter first)) width) as [Hfit|Hfull].
    + destruct (IH (line ++ [first]) (cll + visible (iter first))
                  (visible (iter first))) as (popped & rest & ccl' & -> & -> & Hle & Hrest);
        [lia..|].
      exists (first :: popped), rest, ccl'. simpl.
      rewrite <- app_assoc, Z.add_assoc. split; [done|]. split; [done|].
      split; [lia|]. destruct rest; [done|]. split; [tauto|lia].
    + exists [], (first :: chunks), (visible (iter first)). simpl.
      rewrite app_nil_r, Z.add_0_r. split; [done|]. split; [done|].
      split; [lia|]. split; [done|lia].
Qed.

Lemma substring_length (n m : nat) (s : string) :
  String.length (substring n m s) = Nat.min m (String.length s - n).
Proof.
  revert n m. induction s as [|c s IH]; intros n m.
  - destruct n, m; simpl; lia.
  - destruct n as [|n]; simpl.
    + destruct m as [|m]; simpl; [done|]. rewrite IH. lia.
    + apply IH.
Qed.

Lemma str_getslice_head (s : string) (k : Z) :
  0 <= k -> k <= Z.of_nat (String.length s) ->
  Z.of_nat (String.length (str_getslice s None (Some k))) = k.
Proof.
  intros H0 Hk. unfold str_getslice, str_bound.
  destruct (Z.ltb_spec k 0); [lia|].
  rewrite substring_length, Z.min_l by lia. simpl. lia.
Qed.

Lemma str_getslice_tail (s : string) (k : Z) :
  0 <= k -> k <= Z.of_nat (String.length s) ->
  Z.of_nat (String.length (str_getslice s (Some k) None))
  = Z.of_nat (String.length s) - k.
Proof.
  intros H0 Hk. unfold str_getslice, str_bound.
  destruct (Z.ltb_spec k 0); [lia|].
  rewrite substring_length, Z.min_l by lia. lia.
Qed.

Lemma visible_markers_only (content : list value) :
  forallb is_format content = true -> visible (iter (SWF content)) = 0.
Proof.
  induction content as [|[s|f|c] content IH]; intros H;
    [done | discriminate | | discriminate].
  rewrite iter_SWF_cons, visible_app, IH; done.
Qed.

Lemma simple_visible_Str (chunk : value) :
  simple chunk -> 0 < visible (iter chunk) -> exists s, chunk = Str s.
Proof.
  destruct chunk as [s|f|c]; [by eexists | by (unfold iter; simpl; lia) |].
  intros [_ Hf]. rewrite visible_markers_only by done. lia.
Qed.

Lemma visible_Str (s : string) :
  visible (iter (Str s)) = Z.of_nat (String.length s).
Proof. unfold iter. apply visible_chars. Qed.

(** The first half of a turn, at a width of at least 1: the line fits
    into the width, and the queue has lost weight. *)
Lemma fill_line_spec (width : Z) (chunks : list value) :
  1 <= width -> chunks <> [] -> Forall simple chunks ->
  (exists e, fill_line width chunks = Raise e)
  \/ (exists chunks' line,
        fill_line width chunks = Ok (chunks', line)
        /\ Forall simple chunks' /\ weight chunks' < weight chunks
        /\ Forall simple line /\ total line <= width).
Proof.
  intros Hwidth Hne Hall. unfold fill_line.
  destruct (_lstrip chunks) as [chunks1|e] eqn:Hstrip; [|left; by eexists].
  apply do_strip_sublist in Hstrip.
  pose proof (sublist_simple _ _ Hstrip Hall) as Hall1.
  pose proof (sublist_weight _ _ Hstrip) as Hw1.
  destruct (pack_spec width chunks1 [] 0 0) as
    (popped & rest & ccl' & Hpack & -> & Hfit & Hrest); [lia..|done|].
  simpl bind. rewrite Hpack. simpl bind. simpl app.
  apply Forall_app in Hall1 as [Hpopped Hallrest].
  assert (weight chunks > 0) as Hpos.
  { unfold weight. pose proof (total_nonneg chunks). destruct chunks; [done|].
    simpl length. lia. }
  assert (popped <> [] -> weight rest < weight (popped ++ rest)) as Hpop.
  { intros Hp. unfold weight. rewrite total_app, length_app.
    pose proof (total_nonneg popped). destruct popped; [done|].
    simpl length. lia. }
  rewrite Z.add_0_l in *.
  destruct (Z.ltb_spec width ccl') as [Hlong|Hshort].
  - destruct rest as [|first rest]; [lia|]. destruct Hrest as [-> Hover].
    apply Forall_cons in Hallrest as [Hfirst Hallrest].
    destruct (simple_visible_Str first Hfirst) as [s ->]; [lia|].
    rewrite visible_Str in *. simpl. right. eexists _, _. split; [done|].
    pose proof (total_nonneg popped) as Hp0.
    split; [by constructor|]. split; [|split].
    + assert (weight (Str (str_getslice s (Some (width - total popped)) None)
                      :: rest) < weight (popped ++ Str s :: rest)); [|lia].
      unfold weight. rewrite total_app, length_app. simpl.
      rewrite !visible_Str, str_getslice_tail by lia.
      destruct popped as [|p popped]; simpl in *; lia.
    + apply Forall_app. split; [done|]. by constructor.
    + rewrite total_app. simpl. rewrite visible_Str, str_getslice_head; lia.
  - right. eexists _, _. split; [done|]. split; [done|]. split; [|done].
    destruct popped as [|p popped].
    + destruct rest as [|first rest]; [unfold weight in *; simpl; lia|].
      simpl in Hrest. lia.
    + assert (weight rest < weight ((p :: popped) ++ rest)); [|lia].
      by apply Hpop.
Qed.

Lemma reduce_add_simple (rest : list value) (first : value) :
  flat first -> Forall simple rest ->
  exists line, reduce add rest first = Ok line /\ flat line
    /\ visible (iter line) = visible (iter first) + total rest.
Proof.
  intros Hfirst Hrest. revert first Hfirst.
  induction Hrest as [|y rest Hy Hrest IH]; intros first Hfirst.
  - exists first. simpl. split; [done|]. split; [done|lia].
  - destruct (add_flat_simple first y Hfirst Hy) as (x & Hx & Hflat & Hiter).
    destruct (IH x Hflat) as (line & Hline & Hfl & Hvis).
    exists line. simpl. rewrite Hx. simpl. split; [done|]. split; [done|].
    rewrite Hvis, Hiter, visible_app. lia.
Qed.

(** The second half of a turn: the line that comes out is no longer
    than the chunks that went in. *)
Lemma join_line_spec (current_line : list value) :
  Forall simple current_line ->
  (exists e, join_line current_line = Raise e)
  \/ (exists line, join_line current_line = Ok line
        /\ len line = Ok (visible (iter line))
        /\ visible (iter line) <= total current_line).
Proof.
  intros Hall. unfold join_line.
  destruct (_rstrip current_line) as [stripped|e] eqn:Hstrip;
    [|left; by eexists].
  apply do_strip_sublist in Hstrip.
  pose proof (sublist_simple _ _ Hstrip Hall) as Hall'.
  pose proof (sublist_total _ _ Hstrip) as Htotal.
  right. simpl. destruct Hall' as [|first rest Hfirst Hrest].
  - exists (Str ""). split; [done|]. split; [done|]. apply total_nonneg.
  - destruct (reduce_add_simple rest first) as (line & -> & Hflat & Hvis);
      [by apply simple_flat | done |].
    exists line. split; [done|]. split; [by apply len_flat|].
    simpl in Htotal. lia.
Qed.

(** A whole turn at a width of at least 1. *)
Lemma wrap_line_spec (width : Z) (chunks : list value) :
  1 <= width -> chunks <> [] -> Forall simple chunks ->
  (exists e, wrap_line width chunks = Raise e)
  \/ (exists line chunks',
        wrap_line width chunks = Ok (line, chunks')
        /\ Forall simple chunks' /\ weight chunks' < weight chunks
        /\ len line = Ok (visible (iter line))
        /\ visible (iter line) <= width).
Proof.
  intros Hwidth Hne Hall. unfold wrap_line.
  destruct (fill_line_spec width chunks Hwidth Hne Hall)
    as [[e ->]|(chunks' & current_line & -> & Hall' & Hw & Hline & Hfit)];
    [left; by eexists|].
  simpl.
  destruct (join_line_spec current_line Hline)
    as [[e ->]|(line & -> & Hlen & Hvis)]; [left; by eexists|].
  right. exists line, chunks'. simpl. repeat split; try done. lia.
Qed.

(** ** Every line fits *)

Lemma wrap_loop_fits (fuel : nat) (width : Z) (chunks result lines : list value) :
  1 <= width -> Forall simple chunks -> Forall (fits width) result ->
  wrap_loop fuel width chunks result = Some (Ok lines) ->
  Forall (fits width) lines.
Proof.
  intros Hwidth. revert chunks result.
  induction fuel as [|fuel IH]; intros chunks result Hall Hres.
  - destruct chunks; simpl; [by intros [= <-] | done].
  - destruct chunks as [|chunk chunks]; [by intros [= <-]|].
    rewrite wrap_loop_step by done.
    destruct (wrap_line_spec width (chunk :: chunks))
      as [[e ->]|(line & chunks' & -> & Hall' & _ & Hlen & Hvis)];
      [done..|].
    apply IH; [done|]. apply Forall_app. split; [done|].
    constructor; [|done]. by exists (visible (iter line)).
Qed.

(** C6.  For every text and every width of at least 1, every line of
    the list that [wrap(text, width)] returns has a visible length of
    at most [width]. *)
Theorem wrap_lines_fit (fuel : nat) (text : value) (width : Z)
    (lines : list value) :
  1 <= width ->
  wrap fuel text width = Some (Ok lines) ->
  Forall (fun line => exists n, len line = Ok n /\ n <= width) lines.
Proof.
  intros Hwidth. unfold wrap.
  destruct (chunk_simple text) as (chunks & -> & Hall).
  by apply wrap_loop_fits.
Qed.

Lemma wrap_lines_fit_witness :
  Forall (fun line => exists n, len line = Ok n /\ n <= 10)
    [Str "The quick"; Str "brown fox"].
Proof.
  apply (wrap_lines_fit 2 (Str "The quick brown fox") 10);
    [lia | reflexivity].
Defined.

(** ** Termination *)

Lemma wrap_loop_terminates (width : Z) (n : nat) (chunks result : list value) :
  1 <= width -> Forall simple chunks -> weight chunks < Z.of_nat n ->
  exists r, forall fuel, (n <= fuel)%nat ->
    wrap_loop fuel width chunks result = Some r.
Proof.
  intros Hwidth. revert chunks result.
  induction n as [|n IH]; intros chunks result Hall Hw.
  - unfold weight in Hw. pose proof (total_nonneg chunks). lia.
  - destruct chunks as [|chunk chunks].
    { exists (Ok result). intros fuel _. apply wrap_loop_nil. }
    destruct (wrap_line_spec width (chunk :: chunks))
      as [[e He]|(line & chunks' & He & Hall' & Hw' & _)]; [done..| |].
    + exists (Raise e). intros [|fuel] Hfuel; [lia|].
      rewrite wrap_loop_step by done. by rewrite He.
    + destruct (IH chunks' (result ++ [line])) as [r Hr]; [done|lia|].
      exists r. intros [|fuel] Hfuel; [lia|].
      rewrite wrap_loop_step by done. rewrite He. apply Hr. lia.
Qed.

(** C9.  For every text and every width of at least 1, [wrap(text,
    width)] terminates: there is an outcome [r], a list of lines or an
    exception, that the loop reaches on any supply of fuel from some
    bound on.  The bound is the weight of the chunk queue, which every
    turn of the loop decreases ([wrap_line_spec]). *)
Theorem wrap_terminates (text : value) (width : Z) :
  1 <= width ->
  exists r fuel0, forall fuel, (fuel0 <= fuel)%nat ->
    wrap fuel text width = Some r.
Proof.
  intros Hwidth. unfold wrap.
  destruct (chunk_simple text) as (chunks & -> & Hall).
  destruct (wrap_loop_terminates width (S (Z.to_nat (weight chunks))) chunks [])
    as [r Hr]; [done..|lia|].
  by exists r, (S (Z.to_nat (weight chunks))).
Qed.

Lemma wrap_terminates_witness :
  exists r fuel0, forall fuel, (fuel0 <= fuel)%nat ->
    wrap fuel (Str "The quick brown fox") 10 = Some r.
Proof. apply wrap_terminates. lia. Defined.

(** ** Widths below 1 *)

Lemma whitespace_isspace (c : ascii) :
  in_whitespace c = true -> isspace c = true.
Proof.
  destruct c as [[] [] [] [] [] [] [] []]; vm_compute; intros H;
    done || discriminate.
Qed.

Lemma str_lstrip_spaces (s : string) :
  forallb isspace (list_ascii_of_string s) = true -> str_lstrip s = "".
Proof.
  induction s as [|c s IH]; simpl; [done|].
  intros [Hc Hs]%andb_prop. rewrite Hc. by apply IH.
Qed.

Lemma str_strip_spaces (s : string) :
  forallb isspace (list_ascii_of_string s) = true -> str_strip s = "".
Proof. intros H. unfold str_strip. by rewrite str_lstrip_spaces. Qed.

Lemma forallb_whitespace_isspace (l : list ascii) :
  forallb in_whitespace l = true -> forallb isspace l = true.
Proof.
  induction l as [|c l IH]; simpl; [done|].
  intros [Hc Hl]%andb_prop. by rewrite whitespace_isspace, IH.
Qed.

(** A run of white space is one chunk. *)
Lemma chunk_loop_whitespace (l : list ascii) (cur : string) :
  forallb in_whitespace l = true ->
  chunk_loop (List.map Ch l) (Str cur) (Some break)
  = Ok [Str (cur +:+ string_of_list_ascii l)].
Proof.
  revert cur. induction l as [|c l IH]; intros cur; simpl.
  - by rewrite string_append_nil_r.
  - intros [Hc Hl]%andb_prop. rewrite Hc.
    destruct (decide (Some break ≠ Some break)) as [|_]; [done|].
    simpl. rewrite IH by done. by rewrite string_append_assoc.
Qed.

Lemma chunk_whitespace (s : string) :
  forallb in_whitespace (list_ascii_of_string s) = true ->
  _chunk (Str s) = Ok [Str s].
Proof.
  intros H. unfold _chunk, iter. destruct s as [|c s]; [done|].
  simpl in H |- *. apply andb_prop in H as [Hc Hs]. rewrite Hc.
  destruct (decide (Some break ≠ None)) as [_|n];
    [|exfalso; apply n; discriminate].
  simpl. rewrite chunk_loop_whitespace by done. simpl.
  by rewrite string_of_list_ascii_of_string.
Qed.

Lemma whitespace_items (its : list item) :
  forallb whitespace_item its = true ->
  exists l, its = List.map Ch l /\ forallb in_whitespace l = true.
Proof.
  induction its as [|[a|f] its IH]; simpl; intros H; [by exists []| |done].
  apply andb_prop in H as [Ha H]. destruct (IH H) as (l & -> & Hl).
  exists (a :: l). simpl. by rewrite Ha.
Qed.

(** A text of white space only, string or rich text, is one chunk,
    and that chunk is a string. *)
Lemma chunk_whitespace_only (text : value) :
  whitespace_only text = true ->
  exists s, _chunk text = Ok [Str s]
    /\ forallb in_whitespace (list_ascii_of_string s) = true.
Proof.
  intros H. destruct (whitespace_items _ H) as (l & Hl & Hws).
  exists (string_of_list_ascii l).
  rewrite list_ascii_of_string_of_list_ascii. split; [|done].
  rewrite <- (chunk_whitespace (string_of_list_ascii l))
    by by rewrite list_ascii_of_string_of_list_ascii.
  unfold _chunk. rewrite Hl. unfold iter.
  by rewrite list_ascii_of_string_of_list_ascii.
Qed.

(** The turn of [wrap] on that chunk: the chunk is stripped away, and
    the line is empty; with a negative width the code then looks at
    [chunks[0]] of the empty queue. *)
Lemma wrap_line_whitespace (s : string) (width : Z) :
  forallb in_whitespace (list_ascii_of_string s) = true ->
  wrap_line width [Str s]
  = if width <? 0 then Raise IndexError else Ok (Str "", []).
Proof.
  intros Hs. unfold wrap_line, fill_line, _lstrip, _do_strip. simpl.
  rewrite str_strip_spaces by by apply forallb_whitespace_isspace.
  simpl. by destruct (width <? 0).
Qed.

(** C2, as the code has it.  [wrap] does not look at its width before
    it starts, and there is no [InvalidWidth]; at width 0 every text
    that is white space only, a plain string or a rich text, the empty
    text included, wraps to the one empty line. *)
Theorem wrap_width_0_whitespace (text : value) (fuel : nat) :
  whitespace_only text = true ->
  wrap (S fuel) text 0 = Some (Ok [Str ""]).
Proof.
  intros Htext. unfold wrap.
  destruct (chunk_whitespace_only text Htext) as (s & -> & Hs).
  rewrite wrap_loop_step by done.
  rewrite wrap_line_whitespace by done. simpl.
  apply wrap_loop_nil.
Qed.

Lemma wrap_width_0_whitespace_witness :
  wrap (S 0) (SWF [Str "  "; Str " "]) 0 = Some (Ok [Str ""]).
Proof. apply wrap_width_0_whitespace. reflexivity. Defined.

(** C2 as stated fails: at width 0 the empty text is wrapped, and a
    list of lines is returned. *)
Lemma wrap_invalid_width_counterexample :
  0 < 1 /\ wrap 1 (Str "") 0 = Some (Ok [Str ""]).
Proof. split; reflexivity. Qed.

(** With a visible character in the text, width 0 makes the loop run
    for ever: nothing is taken from the queue, and every turn appends
    an empty line. *)
Lemma wrap_loop_width_0_diverges (fuel : nat) (result : list value) :
  wrap_loop fuel 0 [Str "a"] result = None.
Proof.
  revert result. induction fuel as [|fuel IH]; intros result; [done|].
  rewrite wrap_loop_step by done.
  replace (wrap_line 0 [Str "a"]) with (Ok (Str "", [Str "a"]))
    by reflexivity.
  apply IH.
Qed.

Lemma wrap_width_0_diverges (fuel : nat) : wrap fuel (Str "a") 0 = None.
Proof. apply wrap_loop_width_0_diverges. Qed.

(** * Stripping, chunking and one turn of [wrap], in detail *)

(** ** [_do_strip], [_lstrip] and [_rstrip] *)

Lemma sorted_ascending (d : list nat) :
  StronglySorted le d -> sorted d = d.
Proof.
  intros Hd. unfold sorted. apply (StronglySorted_unique le); [|done|].
  - apply StronglySorted_merge_sort; apply _.
  - apply merge_sort_Permutation.
Qed.

Lemma sorted_descending (d : list nat) :
  StronglySorted ge d -> reverse (sorted d) = d.
Proof.
  intros Hd. rewrite <- (reverse_involutive d) at 2. f_equal.
  unfold sorted. apply (StronglySorted_unique le).
  - apply StronglySorted_merge_sort; apply _.
  - clear -Hd. induction Hd as [|x d Hd IH Hx]; [constructor|].
    rewrite reverse_cons. apply StronglySorted_app_2; [|done|].
    + intros a b Ha Hb. apply list_elem_of_singleton in Hb as ->.
      rewrite elem_of_reverse in Ha. rewrite Forall_forall in Hx.
      specialize (Hx a Ha). lia.
    + repeat constructor.
  - rewrite merge_sort_Permutation. by rewrite reverse_Permutation.
Qed.

Lemma del_items_app (a b : list nat) (chunks : list value) :
  del_items (a ++ b) chunks
  = let* chunks := del_items a chunks in del_items b chunks.
Proof.
  revert chunks. induction a as [|i a IH]; intros chunks; simpl; [done|].
  destruct (del_item i chunks); simpl; [apply IH | done].
Qed.

Lemma del_item_middle (pre post : list value) (x : value) :
  del_item (length pre) (pre ++ x :: post) = Ok (pre ++ post).
Proof.
  unfold del_item. rewrite delete_middle.
  destruct (decide (length pre < length (pre ++ x :: post))%nat) as [|Hn];
    [done|]. rewrite length_app in Hn. simpl in Hn. lia.
Qed.

Lemma del_items_app_l (indices : list nat) (l l' k : list value) :
  del_items indices l = Ok l' -> del_items indices (l ++ k) = Ok (l' ++ k).
Proof.
  revert l. induction indices as [|i indices IH]; intros l; simpl.
  - by intros [= ->].
  - unfold del_item. destruct (decide (i < length l)%nat) as [Hi|]; [|done].
    simpl. intros H. rewrite decide_True by (rewrite length_app; lia).
    simpl. rewrite delete_take_drop, take_app_le, drop_app_le by lia.
    rewrite app_assoc, <- delete_take_drop. by apply IH.
Qed.

Lemma strip_scan_app_l (l k : list value) (indices del : list nat) :
  Forall (fun i => i < length l)%nat indices ->
  strip_scan (l ++ k) indices del = strip_scan l indices del.
Proof.
  intros H. revert del. induction H as [|i indices Hi _ IH]; intros del;
    simpl; [done|].
  rewrite lookup_app_l by done. destruct (l !! i) as [chunk|]; [|done].
  destruct (is_format chunk); [apply IH|].
  destruct chunk as [s| |]; [|done..]. by destruct (String.eqb _ _).
Qed.

Lemma strip_scan_forward (suf pre : list value) (del : list nat) :
  strip_scan (pre ++ suf) (seq (length pre) (length suf)) del
  = let* d := blanks (length pre) suf in Ok (del ++ d).
Proof.
  revert pre del. induction suf as [|c suf IH]; intros pre del; simpl.
  - by rewrite app_nil_r.
  - rewrite list_lookup_middle by done.
    specialize (IH (pre ++ [c])). rewrite <- app_assoc, length_app in IH.
    simpl in IH. replace (length pre + 1)%nat with (S (length pre)) in IH by lia.
    destruct c as [s|f|content]; simpl; [|apply IH|done].
    fold (blank s). destruct (blank s); [|simpl; by rewrite app_nil_r].
    rewrite IH. destruct (blanks (S (length pre)) suf); simpl; [|done].
    by rewrite <- app_assoc.
Qed.

Lemma blanks_ascending (k : nat) (chunks : list value) (d : list nat) :
  blanks k chunks = Ok d ->
  StronglySorted le d /\ Forall (fun i => k <= i)%nat d.
Proof.
  revert k d. induction chunks as [|[s|f|content] chunks IH]; intros k d; simpl.
  - intros [= <-]. split; constructor.
  - destruct (blank s); [|intros [= <-]; split; constructor].
    destruct (blanks (S k) chunks) as [d'|] eqn:Hd'; [|done].
    simpl. intros [= <-]. destruct (IH _ _ Hd') as [Hs Hk].
    split; constructor; [done| |lia|].
    + eapply Forall_impl; [done|]. simpl. lia.
    + eapply Forall_impl; [done|]. simpl. lia.
  - intros H. destruct (IH _ _ H) as [Hs Hk]. split; [done|].
    eapply Forall_impl; [done|]. simpl. lia.
  - done.
Qed.

Lemma del_blanks (suf pre : list value) :
  match blanks (length pre) suf with
  | Ok d =>
      exists suf', strip_left suf = Ok suf'
        /\ del_items (reverse d) (pre ++ suf) = Ok (pre ++ suf')
  | Raise e => strip_left suf = Raise e
  end.
Proof.
  revert pre. induction suf as [|c suf IH]; intros pre; simpl.
  - by exists [].
  - specialize (IH (pre ++ [c])). rewrite <- app_assoc, length_app in IH.
    simpl in IH. replace (length pre + 1)%nat with (S (length pre)) in IH by lia.
    destruct c as [s|f|content]; [| |done].
    + destruct (blank s); [|by eexists].
      destruct (blanks (S (length pre)) suf) as [d|e]; simpl; [|done].
      destruct IH as (suf' & -> & Hdel). exists suf'. split; [done|].
      rewrite reverse_cons, del_items_app, Hdel. simpl.
      replace (pre ++ Str s :: suf') with (pre ++ Str s :: suf') by done.
      rewrite <- app_assoc. simpl. by rewrite del_item_middle.
    + destruct (blanks (S (length pre)) suf) as [d|e]; simpl.
      * destruct IH as (suf' & -> & Hdel). eexists. split; [done|].
        rewrite Hdel. by rewrite <- app_assoc.
      * by rewrite IH.
Qed.

(** [_lstrip] is [strip_left]: the loop over indices, the sort and the
    deletions come to a single pass from the front. *)
Lemma lstrip_strip_left (chunks : list value) :
  _lstrip chunks = strip_left chunks.
Proof.
  unfold _lstrip, _do_strip.
  pose proof (strip_scan_forward chunks [] []) as Hscan. simpl in Hscan.
  rewrite Hscan. clear Hscan.
  pose proof (del_blanks chunks []) as H. simpl in H.
  destruct (blanks 0 chunks) as [d|e] eqn:Hd; simpl; [|done].
  destruct H as (suf' & -> & Hdel).
  rewrite sorted_ascending by (by eapply blanks_ascending). done.
Qed.

Lemma strip_scan_backward (chunks : list value) (del : list nat) :
  strip_scan chunks (reverse (seq 0 (length chunks))) del
  = let* d := blanks_back (reverse chunks) in Ok (del ++ d).
Proof.
  revert del. induction chunks as [|c l IH] using rev_ind; intros del.
  - simpl. by rewrite app_nil_r.
  - rewrite length_app. simpl length.
    replace (length l + 1)%nat with (S (length l)) by lia.
    rewrite seq_S, reverse_snoc, reverse_snoc. simpl.
    rewrite list_lookup_middle by done. rewrite length_reverse.
    assert (forall del,
      strip_scan (l ++ [c]) (reverse (seq 0 (length l))) del
      = let* d := blanks_back (reverse l) in Ok (del ++ d)) as Hrest.
    { intros del'. rewrite strip_scan_app_l; [apply IH|].
      apply Forall_reverse, Forall_seq. lia. }
    destruct c as [s|f|content]; simpl; [|apply Hrest|done].
    fold (blank s). destruct (blank s); [|simpl; by rewrite app_nil_r].
    rewrite Hrest. destruct (blanks_back (reverse l)); simpl; [|done].
    by rewrite <- app_assoc.
Qed.

Lemma blanks_back_descending (reversed : list value) (d : list nat) :
  blanks_back reversed = Ok d ->
  StronglySorted ge d /\ Forall (fun i => i < length reversed)%nat d.
Proof.
  revert d. induction reversed as [|[s|f|content] rest IH]; intros d; simpl.
  - intros [= <-]. split; constructor.
  - destruct (blank s); [|intros [= <-]; split; constructor].
    destruct (blanks_back rest) as [d'|] eqn:Hd'; [|done].
    simpl. intros [= <-]. destruct (IH _ eq_refl) as [Hs Hk].
    split; constructor; [done| |lia|].
    + eapply Forall_impl; [done|]. simpl. lia.
    + eapply Forall_impl; [done|]. simpl. lia.
  - intros H. destruct (IH _ H) as [Hs Hk]. split; [done|].
    eapply Forall_impl; [done|]. simpl. lia.
  - done.
Qed.

Lemma del_blanks_back (l : list value) :
  match blanks_back (reverse l) with
  | Ok d =>
      exists r, strip_left (reverse l) = Ok r
        /\ del_items d l = Ok (reverse r)
  | Raise e => strip_left (reverse l) = Raise e
  end.
Proof.
  induction l as [|c l IH] using rev_ind; [by exists []|].
  rewrite reverse_snoc. simpl. rewrite length_reverse.
  destruct c as [s|f|content]; [| |done].
  - destruct (blank s).
    + destruct (blanks_back (reverse l)) as [d|e]; simpl; [|done].
      destruct IH as (r & -> & Hdel). exists r. split; [done|].
      simpl. by rewrite del_item_middle, app_nil_r.
    + eexists. split; [done|]. simpl.
      by rewrite reverse_cons, reverse_involutive.
  - destruct (blanks_back (reverse l)) as [d|e]; simpl.
    + destruct IH as (r & -> & Hdel). eexists. split; [done|].
      simpl. rewrite reverse_cons. by apply del_items_app_l.
    + by rewrite IH.
Qed.

(** [_rstrip] is [_lstrip] in a mirror. *)
Lemma rstrip_strip_left (chunks : list value) :
  _rstrip chunks
  = let* r := strip_left (reverse chunks) in Ok (reverse r).
Proof.
  unfold _rstrip, _do_strip. rewrite strip_scan_backward. simpl.
  pose proof (del_blanks_back chunks) as H.
  destruct (blanks_back (reverse chunks)) as [d|e] eqn:Hd; simpl;
    [|by rewrite H].
  destruct H as (r & -> & Hdel).
  rewrite sorted_descending by (by eapply blanks_back_descending). done.
Qed.

(** ** [_chunk] *)

Lemma chars_app (l k : list item) : chars (l ++ k) = chars l ++ chars k.
Proof.
  induction l as [|[c|f] l IH]; simpl; [done| |done]. by rewrite IH.
Qed.

Lemma iter_markers_only (content : list value) :
  forallb is_format content = true ->
  Forall (fun c => char_type_of c = format) (iter (SWF content)).
Proof.
  induction content as [|[s|f|c] content IH]; intros H;
    [constructor | discriminate | | discriminate].
  rewrite iter_SWF_cons. apply Forall_app. split; [|by apply IH].
  by repeat constructor.
Qed.

Lemma chars_of_markers (its : list item) :
  Forall (fun c => char_type_of c = format) its -> chars its = [].
Proof.
  induction 1 as [|[a|f] its Hc _ IH]; [done| |done].
  simpl in Hc. by destruct (in_whitespace a).
Qed.

Lemma ends_with_markers_Ch (l : list item) (a : ascii) (rest : list item) :
  ends_with_markers (l ++ Ch a :: rest) = ends_with_markers rest.
Proof.
  induction l as [|[c|f] l IH]; simpl; [done|done|].
  destruct (l ++ Ch a :: rest) as [|[c|g] [|x r]] eqn:E; try done.
  by destruct l as [|? [|? ?]].
Qed.

Lemma ends_with_markers_after_chars (l k : list item) :
  Forall (fun c => char_type_of c <> format) l ->
  ends_with_markers (l ++ k) = ends_with_markers k.
Proof.
  induction 1 as [|[a|f] l Hc _ IH]; simpl; [done|done|].
  by destruct Hc.
Qed.

Lemma ends_with_markers_run (its : list item) :
  Forall (fun c => char_type_of c = format) its ->
  ends_with_markers its = bool_decide (2 <= length its)%nat.
Proof.
  induction 1 as [|[a|f] its Hc Hall IH]; [done| |].
  - simpl in Hc. by destruct (in_whitespace a).
  - simpl. destruct Hall as [|[a'|g] its' Hc' Hall']; [done| |].
    + simpl in Hc'. by destruct (in_whitespace a').
    + destruct its' as [|x r]; [done|]. rewrite IH. done.
Qed.

Lemma adjacent_markers_app_r (l k : list item) :
  adjacent_markers (l ++ k) = false -> adjacent_markers k = false.
Proof.
  induction l as [|[c|f] l IH]; simpl; [done|done|].
  destruct (l ++ k) as [|[c|g] r] eqn:E; [|done..].
  by destruct l, k.
Qed.

Lemma adjacent_markers_app_l (l k : list item) :
  adjacent_markers (l ++ k) = false -> adjacent_markers l = false.
Proof.
  induction l as [|[c|f] l IH]; [done|done|].
  destruct l as [|[c|g] l]; [done| |done]. apply IH.
Qed.

Lemma adjacent_markers_run (its k : list item) :
  Forall (fun c => char_type_of c = format) its ->
  (2 <= length its)%nat -> adjacent_markers (its ++ k) = true.
Proof.
  intros H Hlen. destruct H as [|[a|f] its Hc Hall]; [simpl in Hlen; lia| |].
  - simpl in Hc. by destruct (in_whitespace a).
  - destruct Hall as [|[a'|g] its' Hc' Hall']; [simpl in Hlen; lia| |done].
    simpl in Hc'. by destruct (in_whitespace a').
Qed.

Lemma length_iter_markers (content : list value) :
  forallb is_format content = true ->
  length (iter (SWF content)) = length content.
Proof.
  induction content as [|[s|f|c] content IH]; intros H;
    [done | discriminate | | discriminate].
  rewrite iter_SWF_cons, length_app, IH; done.
Qed.

(** What a run of one kind must be. *)
Lemma run_of_text (t : char_type) (v : value) :
  run_of t v -> t <> format ->
  exists s, v = Str s /\ s <> "".
Proof.
  intros (Hshape & Hne & Hall) Ht. destruct v as [s|f|content].
  - exists s. split; [done|]. by intros ->.
  - exfalso. apply Forall_inv in Hall. simpl in Hall. congruence.
  - exfalso. destruct Hshape as [_ Hf]. apply iter_markers_only in Hf.
    destruct (iter (SWF content)) as [|c r]; [done|].
    apply Forall_inv in Hall. apply Forall_inv in Hf. congruence.
Qed.

Lemma run_of_markers (v : value) :
  run_of format v ->
  (exists f, v = Fmt f)
  \/ (exists content, v = SWF content /\ (2 <= length content)%nat
        /\ forallb is_format content = true).
Proof.
  intros (Hshape & Hne & Hall). destruct v as [s|f|content].
  - exfalso. unfold iter in *. destruct (list_ascii_of_string s) as [|a l];
      [done|]. apply Forall_inv in Hall. simpl in Hall.
    by destruct (in_whitespace a).
  - left. by eexists.
  - right. by exists content.
Qed.

Lemma run_of_item (c : item) : run_of (char_type_of c) (value_of_item c).
Proof.
  destruct c as [a|f]; (split; [done|]); (split; [done|]);
    by repeat constructor.
Qed.

Lemma run_of_add (c : item) (cur : value) :
  run_of (char_type_of c) cur ->
  exists cur', add cur (value_of_item c) = Ok cur'
    /\ run_of (char_type_of c) cur' /\ iter cur' = iter cur ++ [c].
Proof.
  intros Hrun. destruct c as [a|f].
  - destruct (run_of_text _ _ Hrun) as (s & -> & Hs).
    { simpl. by destruct (in_whitespace a). }
    eexists. split; [done|]. destruct Hrun as (_ & _ & Hall).
    split; [|apply iter_Str_append].
    split; [done|]. rewrite iter_Str_append. split; [by destruct (iter (Str s))|].
    apply Forall_app. split; [done|]. by repeat constructor.
  - destruct (run_of_markers _ Hrun) as [[g ->]|(content & -> & Hlen & Hf)].
    + eexists. split; [done|]. split; [|done].
      split; [by split|]. split; [done|]. by repeat constructor.
    + exists (SWF (content ++ [Fmt f])). split; [done|]. split; [|iter_norm].
      split; [|split].
      * split; [rewrite length_app; lia|]. by rewrite forallb_app, Hf.
      * rewrite iter_SWF_app. by destruct (iter (SWF content)).
      * apply iter_markers_only. by rewrite forallb_app, Hf.
Qed.

Lemma run_of_truthy (t : char_type) (cur : value) :
  run_of t cur -> truthy cur = Ok (is_segment cur).
Proof.
  intros (Hshape & Hne & Hall). destruct cur as [s|f|content]; [|done|].
  - by destruct s.
  - destruct Hshape as [_ Hf]. simpl. by rewrite join_plain_markers.
Qed.

Lemma iter_value_of_item (c : item) : iter (value_of_item c) = [c].
Proof. by destruct c. Qed.

Lemma chunk_inv_not_markers (cur : value) (prev : option char_type) :
  chunk_inv cur prev -> prev <> Some format ->
  Forall (fun c => char_type_of c <> format) (iter cur).
Proof.
  destruct prev as [t|]; simpl.
  - intros (_ & _ & Hall) Ht. eapply Forall_impl; [done|].
    simpl. intros c ->. congruence.
  - intros -> _. constructor.
Qed.

Lemma chunk_inv_segment (cur : value) (prev : option char_type) :
  chunk_inv cur prev ->
  is_segment cur = negb (ends_with_markers (iter cur)).
Proof.
  intros Hinv. destruct (decide (prev = Some format)) as [->|Hne].
  - destruct (run_of_markers _ Hinv) as [[f ->]|(content & -> & Hlen & Hf)];
      [done|].
    rewrite ends_with_markers_run by by apply iter_markers_only.
    rewrite length_iter_markers by done. by rewrite bool_decide_true.
  - pose proof (chunk_inv_not_markers _ _ Hinv Hne) as Hall.
    rewrite <- (app_nil_r (iter cur)).
    rewrite ends_with_markers_after_chars by done.
    destruct cur as [s|f|content]; [done| |].
    + apply Forall_inv in Hall. done.
    + destruct prev as [t|]; [|done]. destruct Hinv as ([_ Hf] & Hn & _).
      apply iter_markers_only in Hf.
      destruct (iter (SWF content)) as [|c r]; [done|].
      apply Forall_inv in Hall. apply Forall_inv in Hf. done.
Qed.

Lemma chunk_inv_truthy (cur : value) (prev : option char_type) :
  chunk_inv cur prev ->
  exists b, truthy cur = Ok b
    /\ (b = true -> is_segment cur = true)
    /\ (b = false -> chars (iter cur) = []
          /\ (adjacent_markers (iter cur) = false -> iter cur = []))
    /\ (b = true -> exists t, run_of t cur).
Proof.
  destruct prev as [t|]; simpl.
  - intros Hrun. exists (is_segment cur).
    split; [by eapply run_of_truthy|]. split; [done|]. split; [|by eauto].
    intros Hseg. destruct cur as [s|f|content]; [done..|].
    destruct Hrun as ([Hlen Hf] & _ & _).
    pose proof (iter_markers_only _ Hf) as Hall.
    split; [by apply chars_of_markers|]. intros Hadj.
    rewrite <- (app_nil_r (iter (SWF content))) in Hadj.
    rewrite adjacent_markers_run in Hadj; [done..|].
    by rewrite length_iter_markers.
  - intros ->. exists false. by repeat split.
Qed.

(** [_chunk] in full: it never raises; it keeps every visible
    character; it keeps every item when no two markers stand side by
    side; its chunks are strings and markers exactly when the text does
    not end with two markers; and every chunk is a non-empty run of one
    kind, unless the text is empty. *)
Lemma chunk_loop_runs (its : list item) (cur : value)
    (prev : option char_type) :
  chunk_inv cur prev ->
  exists chunks, chunk_loop its cur prev = Ok chunks
    /\ chars (iter (SWF chunks)) = chars (iter cur ++ its)
    /\ (adjacent_markers (iter cur ++ its) = false ->
        iter (SWF chunks) = iter cur ++ its)
    /\ forallb is_segment chunks
       = negb (ends_with_markers (iter cur ++ its))
    /\ (Forall (fun c => exists t, run_of t c) chunks
        \/ (prev = None /\ its = [] /\ chunks = [Str ""])).
Proof.
  revert cur prev. induction its as [|c rest IH]; intros cur prev Hinv.
  - exists [cur]. rewrite app_nil_r, iter_SWF_cons, iter_SWF_nil, app_nil_r.
    split; [done|]. split; [done|]. split; [done|]. split.
    + simpl. rewrite andb_true_r. by eapply chunk_inv_segment.
    + destruct prev as [t|]; [left|right; by rewrite Hinv].
      constructor; [by exists t|done].
  - simpl chunk_loop.
    destruct (decide (Some (char_type_of c) ≠ prev)) as [Hne|Heq].
    + destruct (chunk_inv_truthy cur prev Hinv)
        as (b & -> & Hseg & Hdrop & Hrun).
      destruct (IH (value_of_item c) (Some (char_type_of c)) (run_of_item c))
        as (more & -> & Hchars & Hitems & Hsegs & Hruns).
      rewrite iter_value_of_item in *. simpl bind.
      destruct Hruns as [Hruns|[? _]]; [|done].
      assert (ends_with_markers (iter cur ++ c :: rest)
              = ends_with_markers ([c] ++ rest)) as Hends.
      { destruct c as [a|f]; [by rewrite ends_with_markers_Ch|].
        apply ends_with_markers_after_chars.
        eapply chunk_inv_not_markers; [done|]. intros ->. by apply Hne. }
      destruct b.
      * exists (cur :: more). split; [done|].
        rewrite iter_SWF_cons, !chars_app, Hchars. split; [done|].
        split; [|split].
        -- intros Hadj. rewrite Hitems; [done|].
           by apply adjacent_markers_app_r in Hadj.
        -- simpl. by rewrite Hseg, Hsegs, Hends.
        -- left. constructor; [by apply Hrun|done].
      * exists more. split; [done|]. destruct Hdrop as [Hnochars Hnoitems];
          [done|].
        rewrite chars_app, Hnochars, Hchars. split; [done|].
        split; [|split].
        -- intros Hadj.
           rewrite Hnoitems by by eapply adjacent_markers_app_l.
           apply Hitems. by apply adjacent_markers_app_r in Hadj.
        -- by rewrite Hsegs, Hends.
        -- by left.
    + assert (prev = Some (char_type_of c)) as -> by
        (destruct (decide (Some (char_type_of c) = prev)); [done|tauto]).
      destruct (run_of_add c cur Hinv) as (cur' & -> & Hrun' & Hiter).
      simpl bind.
      destruct (IH cur' (Some (char_type_of c)) Hrun')
        as (chunks & -> & Hchars & Hitems & Hsegs & Hruns).
      rewrite Hiter, <- app_assoc in *. simpl app in *.
      exists chunks. split; [done|]. split; [done|]. split; [done|].
      split; [done|]. destruct Hruns as [?|[? _]]; [by left|done].
Qed.

(** ** What stripping removes *)

Lemma content_app (l k : list item) : content (l ++ k) = content l ++ content k.
Proof. apply List.filter_app. Qed.

Lemma str_lstrip_cases (s : string) :
  (str_lstrip s = "" /\ forallb isspace (list_ascii_of_string s) = true)
  \/ (exists c r, str_lstrip s = String c r /\ isspace c = false).
Proof.
  induction s as [|c s IH]; simpl; [by left|].
  destruct (isspace c) eqn:Hc; [|right; by exists c, s].
  destruct IH as [[-> Hs]|(c' & r & -> & Hc')]; [by left|right; by eauto].
Qed.

Lemma blank_spaces (s : string) :
  blank s = true <-> forallb isspace (list_ascii_of_string s) = true.
Proof.
  unfold blank. split.
  - intros H. unfold str_strip in H.
    destruct (str_lstrip_cases s) as [[_ Hs]|(c & r & Hl & Hc)]; [done|].
    rewrite Hl in H. simpl in H. rewrite Hc in H. done.
  - intros H. by rewrite str_strip_spaces.
Qed.

Lemma content_blank (s : string) :
  blank s = true -> content (iter (Str s)) = [].
Proof.
  rewrite blank_spaces. unfold iter.
  induction (list_ascii_of_string s) as [|c l IH]; simpl; [done|].
  intros [-> Hl]%andb_prop. simpl. by apply IH.
Qed.

Lemma pruned_refl (l : list value) : pruned l l.
Proof. induction l; by constructor. Qed.

Lemma pruned_app (a a' b b' : list value) :
  pruned a a' -> pruned b b' -> pruned (a ++ b) (a' ++ b').
Proof.
  induction 1 as [|x l l' _ IH|s l l' Hs _ IH]; intros Hb; simpl; [done|..].
  - apply pruned_keep. by apply IH.
  - apply pruned_drop; [done|]. by apply IH.
Qed.

Lemma pruned_reverse (l l' : list value) :
  pruned l l' -> pruned (reverse l) (reverse l').
Proof.
  induction 1 as [|x l l' _ IH|s l l' Hs _ IH]; [constructor|..].
  - rewrite !reverse_cons. apply pruned_app; [done|apply pruned_refl].
  - rewrite reverse_cons. rewrite <- (app_nil_r (reverse l')).
    apply pruned_app; [done|]. by repeat constructor.
Qed.

Lemma pruned_content (l l' : list value) :
  pruned l l' -> content (iter (SWF l')) = content (iter (SWF l)).
Proof.
  induction 1 as [|x l l' _ IH|s l l' Hs _ IH]; [done|..];
    rewrite !iter_SWF_cons, ?content_app, IH; [done|].
  by rewrite content_blank.
Qed.

Lemma pruned_Forall (P : value -> Prop) (l l' : list value) :
  pruned l l' -> Forall P l -> Forall P l'.
Proof.
  induction 1 as [|x l l' _ IH|s l l' Hs _ IH]; [done|..];
    inversion_clear 1; [constructor|]; auto.
Qed.

Lemma pruned_total (l l' : list value) : pruned l l' -> total l' <= total l.
Proof.
  induction 1 as [|x l l' _ IH|s l l' Hs _ IH]; simpl; [done|lia|].
  pose proof (visible_nonneg (iter (Str s))). lia.
Qed.

Lemma strip_left_pruned (chunks stripped : list value) :
  strip_left chunks = Ok stripped -> pruned chunks stripped.
Proof.
  revert stripped. induction chunks as [|[s|f|c] chunks IH]; intros stripped;
    simpl.
  - intros [= <-]. constructor.
  - destruct (blank s) eqn:Hs.
    + intros H. constructor; [done|]. by apply IH.
    + intros [= <-]. apply pruned_refl.
  - destruct (strip_left chunks) as [r|]; [|done]. simpl. intros [= <-].
    constructor. by apply IH.
  - done.
Qed.

(** A list of strings and markers is always stripped; a rich text
    among the chunks stops [strip] only if the scan gets to it. *)
Lemma strip_left_segments (chunks : list value) :
  forallb is_segment chunks = true ->
  exists stripped, strip_left chunks = Ok stripped.
Proof.
  induction chunks as [|[s|f|c] chunks IH]; simpl; intros H;
    [by eexists| | |done].
  - destruct (blank s); [by apply IH|by eexists].
  - destruct (IH H) as [r ->]. by eexists.
Qed.

(** ** Slicing a built-in string *)

Lemma substring_full (s : string) : substring 0 (String.length s) s = s.
Proof. induction s as [|c s IH]; simpl; [done|by rewrite IH]. Qed.

Lemma substring_split (a : nat) (s : string) :
  (a <= String.length s)%nat ->
  substring 0 a s +:+ substring a (String.length s - a) s = s.
Proof.
  revert a. induction s as [|c s IH]; intros a Ha.
  - simpl in Ha. by destruct a.
  - destruct a as [|a]; simpl.
    + by rewrite substring_full.
    + rewrite string_append_cons. f_equal. apply IH. simpl in Ha. lia.
Qed.

(** [s[:k] + s[k:] == s], whatever the integer [k]. *)
Lemma str_getslice_split (s : string) (k : Z) :
  str_getslice s None (Some k) +:+ str_getslice s (Some k) None = s.
Proof.
  unfold str_getslice.
  set (n := Z.of_nat (String.length s)).
  assert (0 <= str_bound n k <= n) as Hb.
  { unfold str_bound, n. destruct (Z.ltb_spec k 0); lia. }
  rewrite Z.sub_0_r.
  replace (Z.to_nat (n - str_bound n k))
    with (String.length s - Z.to_nat (str_bound n k))%nat by lia.
  apply substring_split. lia.
Qed.

(** ** One turn of [wrap], case by case *)

(** The first half: the queue is stripped on the left; a prefix that
    fits is moved to the line; and either nothing more happens, or the
    chunk in front, a string longer than the width, is cut in two at the
    space left, the head completing the line. *)
Lemma fill_line_cases (width : Z) (chunks : list value) :
  0 <= width -> Forall simple chunks ->
  match strip_left chunks with
  | Raise e => fill_line width chunks = Raise e
  | Ok stripped =>
      exists popped rest,
        stripped = popped ++ rest /\ total popped <= width
        /\ ((fill_line width chunks = Ok (rest, popped)
             /\ match rest with
                | [] => True
                | first :: _ =>
                    visible (iter first) <= width
                    /\ width < total popped + visible (iter first)
                end)
            \/ (exists s rest0,
                  rest = Str s :: rest0
                  /\ width < Z.of_nat (String.length s)
                  /\ fill_line width chunks
                     = Ok (Str (str_getslice s (Some (width - total popped)) None)
                             :: rest0,
                           popped
                           ++ [Str (str_getslice s None
                                      (Some (width - total popped)))])))
  end.
Proof.
  intros Hwidth Hall. unfold fill_line. rewrite lstrip_strip_left.
  destruct (strip_left chunks) as [stripped|e] eqn:Hstrip; [|done].
  pose proof (pruned_Forall _ _ _ (strip_left_pruned _ _ Hstrip) Hall) as Hall1.
  destruct (pack_spec width stripped [] 0 0) as
    (popped & rest & ccl' & Hpack & -> & Hfit & Hrest); [lia..|done|].
  simpl bind. rewrite Hpack. simpl bind. simpl app.
  rewrite Z.add_0_l in *. exists popped, rest. split; [done|]. split; [done|].
  apply Forall_app in Hall1 as [_ Hallrest].
  destruct (Z.ltb_spec width ccl') as [Hlong|Hshort].
  - right. destruct rest as [|first rest]; [lia|]. destruct Hrest as [-> Hover].
    apply Forall_cons in Hallrest as [Hfirst _].
    destruct (simple_visible_Str first Hfirst) as [s ->]; [lia|].
    rewrite visible_Str in *. exists s, rest. by repeat split.
  - left. split; [done|]. destruct rest as [|first rest]; [done|].
    destruct Hrest as [-> Hover]. lia.
Qed.

(** Whatever holds of every chunk and of every string holds of the
    chunks and of the line that the first half leaves. *)
Lemma fill_line_Forall (P : value -> Prop) (width : Z)
    (chunks chunks' line : list value) :
  0 <= width -> Forall simple chunks ->
  (forall s, P (Str s)) -> Forall P chunks ->
  fill_line width chunks = Ok (chunks', line) ->
  Forall P chunks' /\ Forall P line.
Proof.
  intros Hwidth Hall HP HPall Hfill.
  pose proof (fill_line_cases width chunks Hwidth Hall) as Hcases.
  destruct (strip_left chunks) as [stripped|e] eqn:Hstrip; [|congruence].
  pose proof (pruned_Forall _ _ _ (strip_left_pruned _ _ Hstrip) HPall) as HP1.
  destruct Hcases as (popped & rest & -> & _ & [[Heq _]|(s & rest0 & -> & _ & Heq)]);
    rewrite Heq in Hfill; injection Hfill as <- <-;
    apply Forall_app in HP1 as [Hpop Hrest].
  - done.
  - apply Forall_cons in Hrest as [_ Hrest]. split; [by constructor|].
    apply Forall_app. split; [done|]. by constructor.
Qed.

Lemma fill_line_content (width : Z) (chunks chunks' line : list value) :
  0 <= width -> Forall simple chunks ->
  fill_line width chunks = Ok (chunks', line) ->
  content (iter (SWF line)) ++ content (iter (SWF chunks'))
  = content (iter (SWF chunks)).
Proof.
  intros Hwidth Hall Hfill.
  pose proof (fill_line_cases width chunks Hwidth Hall) as Hcases.
  destruct (strip_left chunks) as [stripped|e] eqn:Hstrip; [|congruence].
  rewrite <- (pruned_content _ _ (strip_left_pruned _ _ Hstrip)).
  destruct Hcases as (popped & rest & -> & _ & [[Heq _]|(s & rest0 & -> & _ & Heq)]);
    rewrite Heq in Hfill; injection Hfill as <- <-.
  - by rewrite iter_SWF_app, content_app.
  - rewrite !iter_SWF_app, !iter_SWF_cons, !content_app, iter_SWF_nil.
    rewrite app_nil_r, <- !app_assoc. f_equal.
    rewrite app_assoc, <- content_app, <- iter_Str_append.
    by rewrite str_getslice_split.
Qed.

Lemma segments_simple (chunks : list value) :
  forallb is_segment chunks = true -> Forall simple chunks.
Proof.
  induction chunks as [|v chunks IH]; intros H; [constructor|].
  simpl in H. apply andb_prop in H as [Hv Hl].
  constructor; [by destruct v | by apply IH].
Qed.

Lemma fill_line_segments (width : Z) (chunks : list value) :
  0 <= width -> forallb is_segment chunks = true ->
  exists chunks' line, fill_line width chunks = Ok (chunks', line).
Proof.
  intros Hwidth Hseg.
  pose proof (segments_simple chunks Hseg) as Hall.
  pose proof (fill_line_cases width chunks Hwidth Hall) as Hcases.
  destruct (strip_left_segments chunks Hseg) as [stripped Hstrip].
  rewrite Hstrip in Hcases.
  destruct Hcases as (popped & rest & _ & _ & [[Heq _]|(s & rest0 & _ & _ & Heq)]);
    by eauto.
Qed.

Lemma reduce_add_iter (rest : list value) (first : value) :
  flat first -> Forall simple rest ->
  exists line, reduce add rest first = Ok line /\ flat line
    /\ iter line = iter (SWF (first :: rest))
    /\ (is_plain first = true -> Forall (fun x => is_plain x = true) rest ->
        is_plain line = true).
Proof.
  intros Hfirst Hrest. revert first Hfirst.
  induction Hrest as [|y rest Hy Hrest IH]; intros first Hfirst.
  - exists first. simpl. split; [done|]. split; [done|]. split; [|done].
    by rewrite iter_SWF_cons, iter_SWF_nil, app_nil_r.
  - destruct (add_flat_simple first y Hfirst Hy) as (x & Hx & Hflat & Hiter).
    destruct (IH x Hflat) as (line & Hline & Hfl & Hit & Hplain).
    exists line. simpl. rewrite Hx. simpl. split; [done|]. split; [done|].
    split.
    + rewrite Hit, !iter_SWF_cons, Hiter. by rewrite <- app_assoc.
    + intros Hp Hall. apply Forall_cons in Hall as [Hyp Hall].
      apply Hplain; [|done]. destruct first, y; try done.
      simpl in Hx. by injection Hx as <-.
Qed.

(** The second half: the line is stripped on the right, and what is
    left is added up. *)
Lemma join_line_cases (current_line : list value) :
  Forall simple current_line ->
  match strip_left (reverse current_line) with
  | Raise e => join_line current_line = Raise e
  | Ok r =>
      exists line, join_line current_line = Ok line /\ flat line
        /\ iter line = iter (SWF (reverse r))
        /\ (Forall (fun x => is_plain x = true) current_line ->
            is_plain line = true)
  end.
Proof.
  intros Hall. unfold join_line. rewrite rstrip_strip_left.
  destruct (strip_left (reverse current_line)) as [r|e] eqn:Hstrip; [|done].
  simpl bind.
  pose proof (pruned_reverse _ _ (strip_left_pruned _ _ Hstrip)) as Hpr.
  rewrite reverse_involutive in Hpr.
  pose proof (pruned_Forall _ _ _ Hpr Hall) as Hall'.
  destruct (reverse r) as [|first rest] eqn:Hr.
  - exists (Str ""). by repeat split.
  - apply Forall_cons in Hall' as [Hfirst Hrest].
    destruct (reduce_add_iter rest first) as (line & -> & Hflat & Hiter & Hplain);
      [by apply simple_flat | done |].
    exists line. split; [done|]. split; [done|]. split; [done|].
    intros Hp. pose proof (pruned_Forall _ _ _ Hpr Hp) as Hp'.
    apply Forall_cons in Hp' as [? ?]. by apply Hplain.
Qed.

Lemma join_line_content (current_line : list value) (line : value) :
  Forall simple current_line -> join_line current_line = Ok line ->
  content (iter line) = content (iter (SWF current_line)).
Proof.
  intros Hall Hjoin. pose proof (join_line_cases current_line Hall) as Hcases.
  destruct (strip_left (reverse current_line)) as [r|e] eqn:Hstrip;
    [|congruence].
  destruct Hcases as (line' & Heq & _ & Hiter & _).
  rewrite Heq in Hjoin. injection Hjoin as <-. rewrite Hiter.
  pose proof (pruned_reverse _ _ (strip_left_pruned _ _ Hstrip)) as Hpr.
  rewrite reverse_involutive in Hpr. by apply pruned_content.
Qed.

Lemma join_line_segments (current_line : list value) :
  forallb is_segment current_line = true ->
  exists line, join_line current_line = Ok line.
Proof.
  intros Hseg.
  pose proof (segments_simple current_line Hseg) as Hall.
  pose proof (join_line_cases current_line Hall) as Hcases.
  destruct (strip_left_segments (reverse current_line)) as [r Hr].
  { rewrite forallb_forall in *. intros x Hx. apply Hseg.
    apply list_elem_of_In. apply list_elem_of_In in Hx.
    by rewrite elem_of_reverse in Hx. }
  rewrite Hr in Hcases. destruct Hcases as (line & -> & _). by eexists.
Qed.

Lemma wrap_line_parts (width : Z) (chunks chunks' : list value) (line : value) :
  wrap_line width chunks = Ok (line, chunks') ->
  exists current_line,
    fill_line width chunks = Ok (chunks', current_line)
    /\ join_line current_line = Ok line.
Proof.
  unfold wrap_line. destruct (fill_line width chunks) as [[c l]|e]; [|done].
  simpl. destruct (join_line l) as [v|e] eqn:Hj; [|done]. simpl.
  intros [= <- <-]. by exists l.
Qed.

Lemma wrap_line_content (width : Z) (chunks chunks' : list value) (line : value) :
  0 <= width -> Forall simple chunks ->
  wrap_line width chunks = Ok (line, chunks') ->
  Forall simple chunks'
  /\ content (iter line) ++ content (iter (SWF chunks'))
     = content (iter (SWF chunks)).
Proof.
  intros Hwidth Hall Hline.
  destruct (wrap_line_parts _ _ _ _ Hline) as (cl & Hfill & Hjoin).
  destruct (fill_line_Forall simple width chunks chunks' cl) as [Hc Hl];
    [done..|].
  split; [done|]. rewrite (join_line_content cl line) by done.
  by apply (fill_line_content width).
Qed.

Lemma wrap_loop_content (fuel : nat) (width : Z)
    (chunks result lines : list value) :
  0 <= width -> Forall simple chunks ->
  wrap_loop fuel width chunks result = Some (Ok lines) ->
  content (iter (SWF lines))
  = content (iter (SWF result)) ++ content (iter (SWF chunks)).
Proof.
  intros Hwidth. revert chunks result.
  induction fuel as [|fuel IH]; intros chunks result Hall.
  - destruct chunks; [|done]. intros [= <-].
    by rewrite iter_SWF_nil, app_nil_r.
  - destruct chunks as [|chunk chunks].
    { intros [= <-]. by rewrite iter_SWF_nil, app_nil_r. }
    rewrite wrap_loop_step by done.
    destruct (wrap_line width (chunk :: chunks)) as [[line chunks']|e] eqn:Hline;
      [|done].
    destruct (wrap_line_content _ _ _ _ Hwidth Hall Hline) as [Hall' Hcontent].
    intros Hloop. rewrite (IH _ _ Hall' Hloop).
    rewrite iter_SWF_app, content_app, iter_SWF_cons, iter_SWF_nil, app_nil_r.
    by rewrite <- app_assoc, Hcontent.
Qed.

Lemma chars_content (its : list item) :
  chars (content its)
  = List.filter (fun c => negb (isspace c)) (chars its).
Proof.
  induction its as [|[c|f] its IH]; simpl; [done| |done].
  destruct (isspace c); simpl; by rewrite IH.
Qed.

(** The chunks of a plain string are plain strings. *)
Lemma chunk_loop_plain (l : list ascii) (cur : string)
    (prev : option char_type) :
  exists chunks, chunk_loop (List.map Ch l) (Str cur) prev = Ok chunks
    /\ Forall (fun x => is_plain x = true) chunks.
Proof.
  revert cur prev. induction l as [|c l IH]; intros cur prev; simpl.
  - eexists. split; [done|]. by repeat constructor.
  - destruct (decide (Some (if in_whitespace c then break else char) ≠ prev)).
    + destruct (IH (String c "") (Some (if in_whitespace c then break else char)))
        as (more & -> & Hmore).
      simpl. eexists. split; [done|]. destruct (negb _); [|done].
      by constructor.
    + simpl. apply IH.
Qed.

Lemma forallb_Forall (p : value -> bool) (l : list value) :
  forallb p l = true <-> Forall (fun x => p x = true) l.
Proof.
  induction l as [|x l IH]; simpl; [by split|].
  rewrite andb_true_iff, Forall_cons, IH. done.
Qed.

(** A turn on strings and markers never raises. *)
Lemma wrap_line_segments (P : value -> Prop) (width : Z) (chunks : list value) :
  0 <= width -> forallb is_segment chunks = true ->
  (forall s, P (Str s)) -> Forall P chunks ->
  exists line chunks',
    wrap_line width chunks = Ok (line, chunks')
    /\ forallb is_segment chunks' = true /\ Forall P chunks'
    /\ (Forall (fun x => is_plain x = true) chunks -> is_plain line = true).
Proof.
  intros Hwidth Hseg HP HPall.
  pose proof (segments_simple chunks Hseg) as Hall.
  destruct (fill_line_segments width chunks Hwidth Hseg) as (chunks' & cl & Hfill).
  destruct (fill_line_Forall (fun x => is_segment x = true) width chunks chunks' cl)
    as [Hc Hl]; [done..| |done|].
  { by apply forallb_Forall. }
  apply forallb_Forall in Hc, Hl.
  destruct (join_line_segments cl Hl) as [line Hjoin].
  exists line, chunks'. unfold wrap_line. rewrite Hfill. simpl.
  rewrite Hjoin. simpl. split; [done|]. split; [done|]. split.
  - by destruct (fill_line_Forall P width chunks chunks' cl).
  - intros Hplain.
    destruct (fill_line_Forall (fun x => is_plain x = true) width chunks chunks' cl)
      as [_ Hpl]; [done..|].
    pose proof (join_line_cases cl (segments_simple cl Hl)) as Hcases.
    destruct (strip_left (reverse cl)); [|congruence].
    destruct Hcases as (line' & Heq & _ & _ & Hp). rewrite Heq in Hjoin.
    injection Hjoin as <-. by apply Hp.
Qed.

Lemma wrap_loop_segments (P : value -> Prop) (width : Z) (n : nat)
    (chunks result : list value) :
  1 <= width -> forallb is_segment chunks = true ->
  (forall s, P (Str s)) -> Forall P chunks ->
  weight chunks < Z.of_nat n ->
  exists lines more,
    lines = result ++ more
    /\ (forall fuel, (n <= fuel)%nat ->
        wrap_loop fuel width chunks result = Some (Ok lines))
    /\ (Forall (fun x => is_plain x = true) chunks ->
        Forall (fun x => is_plain x = true) more).
Proof.
  intros Hwidth. revert chunks result.
  induction n as [|n IH]; intros chunks result Hseg HP HPall Hw.
  - unfold weight in Hw. pose proof (total_nonneg chunks). lia.
  - destruct chunks as [|chunk chunks].
    { exists result, []. rewrite app_nil_r. split; [done|]. split; [|done].
      intros fuel _. apply wrap_loop_nil. }
    destruct (wrap_line_segments P width (chunk :: chunks))
      as (line & chunks' & Hline & Hseg' & HP' & Hplain); [lia|done..|].
    destruct (wrap_line_spec width (chunk :: chunks))
      as [[e He]|(line' & chunks'' & He & _ & Hw' & _)];
      [done|done|by apply segments_simple|congruence|].
    rewrite Hline in He. injection He as <- <-.
    destruct (IH chunks' (result ++ [line])) as (lines & more & -> & Hr & Hpl);
      [done..|lia|].
    exists ((result ++ [line]) ++ more), (line :: more).
    split; [by rewrite <- app_assoc|]. split.
    + intros [|fuel] Hfuel; [lia|].
      rewrite wrap_loop_step by done. rewrite Hline. apply Hr. lia.
    + intros Hall. constructor; [by apply Hplain|]. apply Hpl.
      destruct (wrap_line_segments (fun x => is_plain x = true) width (chunk :: chunks))
        as (l2 & c2 & Hl2 & _ & Hp2 & _); [lia|done..|].
      congruence.
Qed.

(** * Further results *)

(** ** Stripping a list of chunks *)

Lemma strip_left_fixed (chunks stripped : list value) :
  strip_left chunks = Ok stripped ->
  strip_left stripped = Ok stripped
  /\ (forall s, first_string stripped = Some s -> blank s = false).
Proof.
  revert stripped. induction chunks as [|[s|f|c] chunks IH]; intros stripped;
    simpl.
  - by intros [= <-].
  - destruct (blank s) eqn:Hs; [by apply IH|].
    intros [= <-]. simpl. rewrite Hs. split; [done|]. by intros ? [= <-].
  - destruct (strip_left chunks) as [r|] eqn:Hr; [|done]. simpl.
    intros [= <-]. destruct (IH r eq_refl) as [Hfix Hfirst].
    simpl. by rewrite Hfix.
  - done.
Qed.

(** X1. [_lstrip], which collects indices in one loop and deletes them
    in a second one, does what a single pass from the front does:
    markers are stepped over, every blank string in front of the first
    string that is not blank is removed, nothing behind that string is
    touched, and a rich text met on the way raises [AttributeError]. *)
Theorem lstrip_drops_leading_blanks (chunks : list value) :
  _lstrip chunks = strip_left chunks.
Proof. apply lstrip_strip_left. Qed.

(** X2. [_rstrip] is [_lstrip] seen from the other end: reverse the
    list, strip it on the left, reverse the result; the same lists come
    out and the same exceptions. *)
Theorem rstrip_mirrors_lstrip (chunks : list value) :
  _rstrip chunks = let* r := _lstrip (reverse chunks) in Ok (reverse r).
Proof. rewrite rstrip_strip_left. by rewrite lstrip_strip_left. Qed.

(** X3. What [_lstrip] returns: the list without some of its blank
    strings, so that markers and the characters that are not white
    space are all kept, in order; its first string, if there is one, is
    not blank; and stripping it again changes nothing. *)
Theorem lstrip_result (chunks stripped : list value) :
  _lstrip chunks = Ok stripped ->
  pruned chunks stripped
  /\ content (iter (SWF stripped)) = content (iter (SWF chunks))
  /\ (forall s, first_string stripped = Some s -> blank s = false)
  /\ _lstrip stripped = Ok stripped.
Proof.
  rewrite !lstrip_strip_left. intros H.
  pose proof (strip_left_pruned _ _ H) as Hpr.
  destruct (strip_left_fixed _ _ H) as [Hfix Hfirst].
  split; [done|]. split; [by apply pruned_content|]. by split.
Qed.

Lemma lstrip_result_witness :
  let bold := Fmt (PlainFormat "bold") in
  let chunks := [Str "  "; bold; Str " "; Str "ab"; Str " "] in
  let stripped := [bold; Str "ab"; Str " "] in
  pruned chunks stripped
  /\ content (iter (SWF stripped)) = content (iter (SWF chunks))
  /\ (forall s, first_string stripped = Some s -> blank s = false)
  /\ _lstrip stripped = Ok stripped.
Proof. apply lstrip_result. reflexivity. Defined.

(** ** The chunks of a text *)

(** X4. [_chunk] never raises, whatever it is given, and the chunks
    hold every visible character of the text, in order. *)
Theorem chunk_keeps_characters (text : value) :
  exists chunks, _chunk text = Ok chunks
    /\ chars (iter (SWF chunks)) = chars (iter text).
Proof.
  destruct (chunk_loop_runs (iter text) (Str "") None eq_refl)
    as (chunks & H & Hchars & _).
  by exists chunks.
Qed.

(** X5. Where no two markers stand side by side, the chunks hold every
    item of the text, markers included, in order: chunking only cuts. *)
Theorem chunk_keeps_items (text : value) :
  adjacent_markers (iter text) = false ->
  exists chunks, _chunk text = Ok chunks
    /\ iter (SWF chunks) = iter text.
Proof.
  intros Hadj.
  destruct (chunk_loop_runs (iter text) (Str "") None eq_refl)
    as (chunks & H & _ & Hitems & _).
  exists chunks. split; [done|]. by apply Hitems.
Qed.

Lemma chunk_keeps_items_witness :
  let text := SWF [Fmt (PlainFormat "bold"); Str "hello";
                   Fmt (PlainFormat "normal"); Str " world"] in
  exists chunks, _chunk text = Ok chunks
    /\ iter (SWF chunks) = iter text.
Proof. apply chunk_keeps_items. reflexivity. Defined.

(** X6. Two markers side by side in front of a character are lost: they
    add up to a rich text of length 0, which is false, and
    [if current_chunk] does not yield it.  The chunks of such a text
    hold no marker at all. *)
Theorem chunk_drops_adjacent_markers (f g : Format) (c : ascii) (s : string) :
  exists chunks,
    _chunk (SWF [Fmt f; Fmt g; Str (String c s)]) = Ok chunks
    /\ markers (iter (SWF chunks)) = [].
Proof.
  unfold _chunk.
  assert (iter (SWF [Fmt f; Fmt g; Str (String c s)])
          = Fm f :: Fm g :: List.map Ch (c :: list_ascii_of_string s)) as ->.
  { by rewrite !iter_SWF_cons, iter_SWF_nil, app_nil_r. }
  destruct (chunk_loop_plain (list_ascii_of_string s) (String c "")
              (Some (char_type_of (Ch c)))) as (more & Hmore & Hplain).
  exists more. split.
  - simpl. simpl in Hmore.
    destruct (decide (Some format ≠ None)) as [_|n]; [|by destruct n].
    simpl.
    destruct (decide (Some format ≠ Some format)) as [n|_]; [by destruct n|].
    simpl.
    destruct (decide (Some (if in_whitespace c then break else char)
                      ≠ Some format)) as [_|n];
      [|destruct n; by destruct (in_whitespace c)].
    simpl. by rewrite Hmore.
  - clear Hmore. induction Hplain as [|x l Hx _ IH]; [done|].
    rewrite iter_SWF_cons. destruct x as [a| |]; try done.
    unfold iter at 1.
    assert (forall l k, markers (List.map Ch l ++ k) = markers k) as Hm
      by (intros l0 k; induction l0; simpl; done).
    by rewrite Hm.
Qed.

(** X7. The chunks are plain strings and markers, with one exception:
    a text that ends with two or more markers gets a rich text as a
    chunk. *)
Theorem chunk_segments (text : value) :
  exists chunks, _chunk text = Ok chunks
    /\ forallb is_segment chunks = negb (ends_with_markers (iter text)).
Proof.
  destruct (chunk_loop_runs (iter text) (Str "") None eq_refl)
    as (chunks & H & _ & _ & Hseg & _).
  by exists chunks.
Qed.

(** X8. Every chunk of a text that is not empty is a run of one kind
    with at least one item: white space only, or other characters
    only, or markers only. *)
Theorem chunk_runs (text : value) :
  iter text <> [] ->
  exists chunks, _chunk text = Ok chunks
    /\ Forall (fun chunk => exists t, run_of t chunk) chunks.
Proof.
  intros Hne.
  destruct (chunk_loop_runs (iter text) (Str "") None eq_refl)
    as (chunks & H & _ & _ & _ & [Hruns|(_ & Hnil & _)]); [|done].
  by exists chunks.
Qed.

Lemma chunk_runs_witness :
  let text := SWF [Fmt (PlainFormat "bold"); Str "hello ";
                   Fmt (PlainFormat "normal"); Str " world"] in
  exists chunks, _chunk text = Ok chunks
    /\ Forall (fun chunk => exists t, run_of t chunk) chunks.
Proof. apply chunk_runs. simpl. discriminate. Defined.

(** ** What [wrap] keeps *)

(** X9. [wrap] loses white space and nothing else that can be seen:
    the characters of the lines for which [isspace] does not hold are
    those of the text, in order; and where no two markers stand side by
    side in the text, the markers come out as well, each at its place
    among those characters. *)
Theorem wrap_keeps_content (fuel : nat) (text : value) (width : Z)
    (lines : list value) :
  0 <= width -> wrap fuel text width = Some (Ok lines) ->
  List.filter (fun c => negb (isspace c)) (chars (iter (SWF lines)))
  = List.filter (fun c => negb (isspace c)) (chars (iter text))
  /\ (adjacent_markers (iter text) = false ->
      content (iter (SWF lines)) = content (iter text)).
Proof.
  intros Hwidth. unfold wrap.
  destruct (chunk_simple text) as (chunks & Hchunk & Hall).
  destruct (chunk_loop_runs (iter text) (Str "") None eq_refl)
    as (chunks' & Hchunk' & Hchars & Hitems & _).
  unfold _chunk in *. rewrite Hchunk' in Hchunk. injection Hchunk as ->.
  rewrite Hchunk'. intros Hloop.
  pose proof (wrap_loop_content _ _ _ _ _ Hwidth Hall Hloop) as Hcontent.
  rewrite iter_SWF_nil in Hcontent. simpl in Hcontent, Hchars. split.
  - by rewrite <- !chars_content, Hcontent, !chars_content, Hchars.
  - intros Hadj. by rewrite Hcontent, (Hitems Hadj).
Qed.

Lemma wrap_keeps_content_witness :
  let text := SWF [Fmt (PlainFormat "bold"); Str "hello";
                   Fmt (PlainFormat "normal"); Str " world"] in
  let lines := [SWF [Fmt (PlainFormat "bold"); Str "hello";
                     Fmt (PlainFormat "normal")]; Str "world"] in
  List.filter (fun c => negb (isspace c)) (chars (iter (SWF lines)))
  = List.filter (fun c => negb (isspace c)) (chars (iter text))
  /\ (adjacent_markers (iter text) = false ->
      content (iter (SWF lines)) = content (iter text)).
Proof. apply (wrap_keeps_content 5 _ 5); [lia | reflexivity]. Defined.

(** ** When [wrap] returns and when it raises *)

(** X10. With a width of at least 1, [wrap] returns a list of lines
    for every text that does not end with two or more markers. *)
Theorem wrap_returns (text : value) (width : Z) :
  1 <= width -> ends_with_markers (iter text) = false ->
  exists lines n, forall fuel, (n <= fuel)%nat ->
    wrap fuel text width = Some (Ok lines).
Proof.
  intros Hwidth Hends. unfold wrap.
  destruct (chunk_loop_runs (iter text) (Str "") None eq_refl)
    as (chunks & Hchunk & _ & _ & Hseg & _).
  unfold _chunk. rewrite Hchunk. simpl in Hseg. rewrite Hends in Hseg.
  destruct (wrap_loop_segments (fun _ => True) width
              (S (Z.to_nat (weight chunks))) chunks [])
    as (lines & more & _ & Hloop & _); [done..| |lia|].
  { by apply Forall_forall. }
  by exists lines, (S (Z.to_nat (weight chunks))).
Qed.

Lemma wrap_returns_witness :
  exists lines n, forall fuel, (n <= fuel)%nat ->
    wrap fuel (SWF [Fmt (PlainFormat "bold"); Str "hello world";
                    Fmt (PlainFormat "normal")]) 4
    = Some (Ok lines).
Proof. apply wrap_returns; [lia | reflexivity]. Defined.

(** X11. The lines of a plain string are plain strings. *)
Theorem wrap_plain_string (s : string) (width : Z) :
  1 <= width ->
  exists lines n,
    (forall fuel, (n <= fuel)%nat ->
       wrap fuel (Str s) width = Some (Ok lines))
    /\ Forall (fun line => is_plain line = true) lines.
Proof.
  intros Hwidth. unfold wrap, _chunk.
  destruct (chunk_loop_plain (list_ascii_of_string s) "" None)
    as (chunks & Hchunk & Hplain).
  change (iter (Str s)) with (List.map Ch (list_ascii_of_string s)).
  rewrite Hchunk.
  destruct (wrap_loop_segments (fun x => is_plain x = true) width
              (S (Z.to_nat (weight chunks))) chunks [])
    as (lines & more & -> & Hloop & Hlines); [done| |done|done|lia|].
  { apply forallb_Forall. eapply Forall_impl; [done|]. by intros []. }
  exists ([] ++ more), (S (Z.to_nat (weight chunks))).
  split; [done|]. by apply Hlines.
Qed.

Lemma wrap_plain_string_witness :
  exists lines n,
    (forall fuel, (n <= fuel)%nat ->
       wrap fuel (Str "hello world") 4 = Some (Ok lines))
    /\ Forall (fun line => is_plain line = true) lines.
Proof. apply wrap_plain_string. lia. Defined.

(** The chunks of [_chunk] but the last are strings and markers; only
    the chunk that is held when the items run out is yielded without
    [if current_chunk]. *)
Lemma chunk_loop_last (its : list item) (cur : value)
    (prev : option char_type) :
  chunk_inv cur prev ->
  exists init last, chunk_loop its cur prev = Ok (init ++ [last])
    /\ forallb is_segment init = true /\ simple last.
Proof.
  revert cur prev. induction its as [|c rest IH]; intros cur prev Hinv.
  - exists [], cur. split; [done|]. split; [done|].
    destruct prev as [t|]; [|by rewrite Hinv].
    destruct Hinv as (Hshape & _). destruct cur as [| |content]; [done..|].
    destruct Hshape as [Hlen Hf]. split; [|done].
    destruct content; [simpl in Hlen; lia|done].
  - simpl chunk_loop.
    destruct (decide (Some (char_type_of c) ≠ prev)) as [Hne|Heq].
    + destruct (chunk_inv_truthy cur prev Hinv) as (b & -> & Hseg & _).
      destruct (IH (value_of_item c) (Some (char_type_of c)) (run_of_item c))
        as (init & last & -> & Hinit & Hlast).
      simpl bind. destruct b.
      * exists (cur :: init), last. split; [done|]. split; [|done].
        simpl. by rewrite Hseg.
      * by exists init, last.
    + assert (prev = Some (char_type_of c)) as -> by
        (destruct (decide (Some (char_type_of c) = prev)); [done|tauto]).
      destruct (run_of_add c cur Hinv) as (cur' & -> & Hrun' & _).
      simpl bind. by apply IH.
Qed.

Lemma strip_left_trailing (init : list value) (m : value) :
  forallb is_segment init = true -> is_segment m = false ->
  strip_left (init ++ [m]) = Raise AttributeError
  \/ (exists init', strip_left (init ++ [m]) = Ok (init' ++ [m])
        /\ forallb is_segment init' = true).
Proof.
  intros Hinit Hm. induction init as [|[s|f|c] init IH]; simpl in *.
  - left. by destruct m.
  - destruct (blank s); [by apply IH|]. right. by exists (Str s :: init).
  - destruct (IH Hinit) as [->|(init' & -> & Hinit')]; [by left|].
    right. by exists (Fmt f :: init').
  - done.
Qed.

Lemma app_snoc_split (popped rest init : list value) (m : value) :
  popped ++ rest = init ++ [m] -> rest <> [] ->
  exists rest0, rest = rest0 ++ [m] /\ init = popped ++ rest0.
Proof.
  intros Heq Hne. destruct rest as [|x rest _] using rev_ind; [done|].
  rewrite app_assoc in Heq. apply app_inj_tail in Heq as [<- <-].
  by exists rest.
Qed.

(** A turn on a queue that ends with a rich text: it raises, or it
    leaves a queue that ends with that rich text. *)
Lemma wrap_line_trailing (width : Z) (init : list value) (m : value) :
  0 <= width -> forallb is_segment init = true ->
  simple m -> is_segment m = false ->
  wrap_line width (init ++ [m]) = Raise AttributeError
  \/ (exists line init',
        wrap_line width (init ++ [m]) = Ok (line, init' ++ [m])
        /\ forallb is_segment init' = true).
Proof.
  intros Hwidth Hinit Hsimple Hm.
  assert (Forall simple (init ++ [m])) as Hall.
  { apply Forall_app. split; [by apply segments_simple|by constructor]. }
  pose proof (fill_line_cases width (init ++ [m]) Hwidth Hall) as Hcases.
  unfold wrap_line.
  destruct (strip_left_trailing init m Hinit Hm)
    as [Hstrip|(init' & Hstrip & Hinit')]; rewrite Hstrip in Hcases.
  { left. by rewrite Hcases. }
  destruct Hcases as (popped & rest & Heq & _ & Hcase).
  destruct (decide (rest = [])) as [->|Hne].
  - left. destruct Hcase as [[-> _]|(s & rest0 & ? & _)]; [|done].
    simpl bind. rewrite app_nil_r in Heq. subst popped.
    pose proof (join_line_cases (init' ++ [m])) as Hjoin.
    rewrite reverse_app in Hjoin. simpl in Hjoin.
    destruct m as [| |c]; [done..|]. simpl in Hjoin. rewrite Hjoin; [done|].
    apply Forall_app. split; [by apply segments_simple|by constructor].
  - right. symmetry in Heq.
    destruct (app_snoc_split _ _ _ _ Heq Hne) as (rest0 & -> & ->).
    rewrite forallb_app in Hinit'. apply andb_prop in Hinit' as [Hpop Hrest0].
    destruct Hcase as [[-> _]|(s & rest1 & Hrest & _ & ->)]; simpl bind.
    + destruct (join_line_segments popped Hpop) as [line ->]. simpl.
      by exists line, rest0.
    + destruct rest0 as [|x rest0].
      { simpl in Hrest. injection Hrest as Hms _. by rewrite Hms in Hm. }
      simpl in Hrest. injection Hrest as -> <-.
      destruct (join_line_segments
                  (popped ++ [Str (str_getslice s None
                                     (Some (width - total popped)))]))
        as [line ->].
      { by rewrite forallb_app, Hpop. }
      simpl.
      by exists line,
        (Str (str_getslice s (Some (width - total popped)) None) :: rest0).
Qed.

Lemma wrap_loop_trailing (width : Z) (n : nat) (init result : list value)
    (m : value) :
  1 <= width -> forallb is_segment init = true ->
  simple m -> is_segment m = false ->
  weight (init ++ [m]) < Z.of_nat n ->
  forall fuel, (n <= fuel)%nat ->
    wrap_loop fuel width (init ++ [m]) result = Some (Raise AttributeError).
Proof.
  intros Hwidth. revert init result.
  induction n as [|n IH]; intros init result Hinit Hsimple Hm Hw fuel Hfuel.
  - unfold weight in Hw. pose proof (total_nonneg (init ++ [m])). lia.
  - destruct fuel as [|fuel]; [lia|].
    rewrite wrap_loop_step by by destruct init.
    destruct (wrap_line_trailing width init m)
      as [->|(line & init' & Hline & Hinit')]; [lia|done..| |].
    { done. }
    destruct (wrap_line_spec width (init ++ [m]))
      as [[e He]|(line' & chunks' & He & _ & Hw' & _)];
      [done|by destruct init| |congruence|].
    { apply Forall_app. split; [by apply segments_simple|by constructor]. }
    rewrite Hline in He |- *. injection He as <- <-.
    apply IH; [done..|lia|lia].
Qed.

(** X12. With a width of at least 1, [wrap] raises [AttributeError]
    for every text that ends with two or more markers: they add up to
    a rich text, the last chunk, and [_do_strip] calls [strip] on it,
    at the latest when it has become the last chunk of a line. *)
Theorem wrap_raises_on_trailing_markers (text : value) (width : Z) :
  1 <= width -> ends_with_markers (iter text) = true ->
  exists n, forall fuel, (n <= fuel)%nat ->
    wrap fuel text width = Some (Raise AttributeError).
Proof.
  intros Hwidth Hends. unfold wrap, _chunk.
  destruct (chunk_loop_runs (iter text) (Str "") None eq_refl)
    as (chunks & Hchunk & _ & _ & Hseg & _).
  destruct (chunk_loop_last (iter text) (Str "") None eq_refl)
    as (init & last & Hchunk' & Hinit & Hlast).
  rewrite Hchunk' in Hchunk. injection Hchunk as <-. rewrite Hchunk'.
  simpl in Hseg. rewrite Hends, forallb_app, Hinit in Hseg. simpl in Hseg.
  rewrite andb_true_r in Hseg.
  exists (S (Z.to_nat (weight (init ++ [last])))). intros fuel Hfuel.
  eapply wrap_loop_trailing; [done..| |done]. lia.
Qed.

Lemma wrap_raises_on_trailing_markers_witness :
  exists n, forall fuel, (n <= fuel)%nat ->
    wrap fuel (SWF [Str "hello world"; Fmt (PlainFormat "bold");
                    Fmt (PlainFormat "normal")]) 4
    = Some (Raise AttributeError).
Proof. apply wrap_raises_on_trailing_markers; [lia | reflexivity]. Defined.

(** X13. Every text of white space only, a plain string or a rich
    text without markers, the empty text included, is wrapped to the
    one empty line at every width from 0 on; a negative width makes
    [wrap] look at [chunks[0]] of the empty queue, which raises
    [IndexError]. *)
Theorem wrap_whitespace_only (text : value) (width : Z) (fuel : nat) :
  whitespace_only text = true ->
  wrap (S fuel) text width
  = Some (if width <? 0 then Raise IndexError else Ok [Str ""]).
Proof.
  intros Htext. unfold wrap.
  destruct (chunk_whitespace_only text Htext) as (s & -> & Hs).
  rewrite wrap_loop_step by done.
  rewrite wrap_line_whitespace by done.
  destruct (width <? 0); [done|]. apply wrap_loop_nil.
Qed.

Lemma wrap_whitespace_only_witness :
  wrap (S 0) (SWF [Str " "; Str "  "]) (-1)
  = Some (if -1 <? 0 then Raise IndexError else Ok [Str ""]).
Proof. apply wrap_whitespace_only. reflexivity. Defined.

(** ** The text of a slice *)

Lemma chars_map_Ch (l : list ascii) : chars (List.map Ch l) = l.
Proof. induction l as [|c l IH]; simpl; [done|by rewrite IH]. Qed.

Lemma chars_map_Fm (fs : list Format) : chars (List.map Fm fs) = [].
Proof. by induction fs. Qed.

Lemma string_of_list_ascii_app (l k : list ascii) :
  string_of_list_ascii (l ++ k)
  = string_of_list_ascii l +:+ string_of_list_ascii k.
Proof.
  induction l as [|c l IH]; [done|]. simpl.
  by rewrite string_append_cons, IH.
Qed.

(** [str] of a well-formed rich text is the string of its visible
    characters. *)
Lemma str_chars (content : list value) :
  forallb is_segment content = true ->
  join_plain content
  = Ok (string_of_list_ascii (chars (iter (SWF content)))).
Proof.
  induction content as [|[s|f|c] content IH]; intros Hwf; [done|..];
    simpl in Hwf; [| |done]; rewrite iter_SWF_cons, chars_app.
  - simpl join_plain. rewrite IH by done. simpl bind.
    change (iter (Str s)) with (List.map Ch (list_ascii_of_string s)).
    rewrite chars_map_Ch, string_of_list_ascii_app.
    by rewrite string_of_list_ascii_of_string.
  - simpl join_plain. by rewrite IH.
Qed.

Lemma length_chars (its : list item) :
  Z.of_nat (length (chars its)) = visible its.
Proof. induction its as [|[c|f] its IH]; simpl; [done| |done]. lia. Qed.

Lemma string_length_of_list (l : list ascii) :
  String.length (string_of_list_ascii l) = length l.
Proof. induction l as [|c l IH]; simpl; [done|by rewrite IH]. Qed.

Lemma chars_from_char (i : nat) (its : list item) :
  chars (from_char i its) = drop i (chars its).
Proof.
  revert i. induction its as [|[c|f] its IH]; intros i; simpl.
  - by destruct i.
  - destruct i as [|i]; [done|]. simpl. apply IH.
  - apply IH.
Qed.

Lemma chars_upto_char (k : nat) (its : list item) :
  chars (upto_char k its) = take k (chars its).
Proof.
  revert k. induction its as [|[c|f] its IH]; intros k.
  - by destruct k.
  - destruct k as [|k]; [done|]. simpl. by rewrite IH.
  - destruct k as [|k]; [by rewrite take_0|]. simpl. apply (IH (S k)).
Qed.

Lemma substring_chars (a k : nat) (s : string) :
  list_ascii_of_string (substring a k s)
  = take k (drop a (list_ascii_of_string s)).
Proof.
  revert a k. induction s as [|c s IH]; intros a k.
  - destruct a, k; done.
  - destruct a as [|a].
    + destruct k as [|k]; [done|]. simpl. by rewrite IH.
    + simpl. apply IH.
Qed.

Lemma substring_of_list (a k : nat) (l : list ascii) :
  substring a k (string_of_list_ascii l)
  = string_of_list_ascii (take k (drop a l)).
Proof.
  rewrite <- (string_of_list_ascii_of_string (substring _ _ _)).
  by rewrite substring_chars, list_ascii_of_string_of_list_ascii.
Qed.

(** Every slice with bounds inside the text, apart from the empty
    ones: the markers in front, then the segments of the stretch. *)
Lemma getslice_range (t : value) (i j : Z) :
  well_formed t -> 0 <= i -> i < j -> j <= visible (iter t) ->
  getslice t (Some i) (Some j)
  = Ok (SWF (List.map Fmt (markers (before_char (Z.to_nat i) (iter t)))
             ++ collect [] ""
                  (upto_char (Z.to_nat (j - i))
                     (from_char (Z.to_nat i) (iter t))))).
Proof.
  intros Hwf Hi Hij Hj.
  rewrite getslice_well_formed, get_slice_well_formed by done.
  rewrite Z.min_l by done. by rewrite slice_loop_range by lia.
Qed.

Lemma slice_well_formed (ms : list Format) (its : list item) :
  well_formed (SWF (List.map Fmt ms ++ collect [] "" its)).
Proof.
  simpl. rewrite forallb_app, segments_markers. by apply segments_collect.
Qed.

Lemma iter_slice (ms : list Format) (its : list item) :
  iter (SWF (List.map Fmt ms ++ collect [] "" its)) = List.map Fm ms ++ its.
Proof. by rewrite iter_SWF_app, iter_markers, iter_collect. Qed.

Lemma getslice_str (t : value) (text : string) (i j : Z) :
  well_formed t -> str t = Ok text ->
  0 <= i -> i <= j -> j <= Z.of_nat (String.length text) ->
  exists s, getslice t (Some i) (Some j) = Ok s
    /\ str s = Ok (str_getslice text (Some i) (Some j)).
Proof.
  intros Hwf Hstr Hi Hij Hj.
  destruct t as [| |content]; [done..|].
  simpl in Hstr. rewrite str_chars in Hstr by done. injection Hstr as <-.
  rewrite string_length_of_list, length_chars in Hj.
  unfold str_getslice. rewrite string_length_of_list, length_chars.
  unfold str_bound.
  destruct (Z.ltb_spec i 0) as [|_]; [lia|].
  destruct (Z.ltb_spec j 0) as [|_]; [lia|].
  rewrite !Z.min_l by lia. rewrite substring_of_list.
  destruct (decide (i = j)) as [->|Hne].
  - rewrite getslice_well_formed, get_slice_well_formed by done.
    rewrite Z.min_l by done. eexists. split; [done|].
    simpl str. rewrite join_plain_markers
      by by apply slice_loop_empty_markers.
    by rewrite Z.sub_diag.
  - rewrite getslice_range by (done || lia). eexists. split; [done|].
    simpl str. rewrite str_chars by apply slice_well_formed.
    rewrite iter_slice, chars_app, chars_map_Fm. simpl app.
    by rewrite chars_upto_char, chars_from_char.
Qed.

(** X14. The text of a slice is the slice of the text:
    [str(t[i:j]) == str(t)[i:j]] for bounds [0 <= i <= j <= len(t)]. *)
Theorem slice_text (t : value) (text : string) (i j : Z) :
  well_formed t -> str t = Ok text ->
  0 <= i -> i <= j -> j <= Z.of_nat (String.length text) ->
  exists s, getslice t (Some i) (Some j) = Ok s
    /\ str s = Ok (str_getslice text (Some i) (Some j)).
Proof. apply getslice_str. Qed.

Lemma slice_text_witness :
  exists s,
    getslice (SWF [Fmt (PlainFormat "bold"); Str "hello";
                   Fmt (PlainFormat "normal"); Str " world"])
      (Some 3) (Some 8) = Ok s
    /\ str s = Ok (str_getslice "hello world" (Some 3) (Some 8)).
Proof. apply slice_text; [reflexivity | reflexivity | simpl; lia..]. Defined.

(** After the last visible character there are markers only. *)
Lemma upto_char_all (its : list item) :
  exists trailing,
    its = upto_char (Z.to_nat (visible its)) its ++ List.map Fm trailing.
Proof.
  induction its as [|[c|f] its IH].
  - by exists [].
  - destruct IH as [trailing IH]. exists trailing.
    pose proof (visible_nonneg its).
    replace (Z.to_nat (visible (Ch c :: its)))
      with (S (Z.to_nat (visible its))) by (simpl; lia).
    simpl. by rewrite <- IH.
  - destruct IH as [trailing IH]. simpl visible. rewrite Z.add_0_l.
    destruct (Z.to_nat (visible its)) as [|k] eqn:Hk.
    + exists (f :: trailing). rewrite upto_char_0 in IH |- *.
      simpl in IH |- *. by rewrite <- IH.
    + exists trailing. simpl. by rewrite <- IH.
Qed.

Lemma upto_char_last (k : nat) (its : list item) :
  Z.of_nat (S k) <= visible its ->
  exists l c, upto_char (S k) its = l ++ [Ch c].
Proof.
  revert k. induction its as [|[c|f] its IH]; intros k Hk.
  - simpl in Hk. lia.
  - destruct k as [|k].
    + exists [], c. simpl. by rewrite upto_char_0.
    + destruct (IH k) as (l & c' & Hl); [simpl in Hk; lia|].
      exists (Ch c :: l), c'. simpl in Hl |- *. by rewrite Hl.
  - destruct (IH k) as (l & c' & Hl); [simpl in Hk; lia|].
    exists (Fm f :: l), c'. simpl in Hl |- *. by rewrite Hl.
Qed.

Lemma markers_app (l k : list item) :
  markers (l ++ k) = markers l ++ markers k.
Proof. induction l as [|[c|f] l IH]; simpl; [done..|by rewrite IH]. Qed.

Lemma markers_map_Fm (fs : list Format) : markers (List.map Fm fs) = fs.
Proof. induction fs as [|f fs IH]; simpl; [done|by rewrite IH]. Qed.

Lemma getslice_full (t : value) (n : Z) :
  well_formed t -> len t = Ok n -> 1 <= n ->
  exists s body c trailing,
    getslice t None None = Ok s
    /\ iter s = body ++ [Ch c]
    /\ iter t = iter s ++ List.map Fm trailing.
Proof.
  intros Hwf Hlen Hn. rewrite getslice_well_formed by done.
  unfold _get_slice. rewrite Hlen. simpl bind. rewrite Z.min_id.
  rewrite len_well_formed in Hlen by done. injection Hlen as <-.
  unfold _enumerate_chars. rewrite slice_loop_range by lia.
  rewrite Z.sub_0_r.
  destruct (Z.to_nat (visible (iter t))) as [|k] eqn:Hk; [lia|].
  change (Z.to_nat 0) with O. rewrite <- collect_leading_markers.
  destruct (upto_char_last k (iter t)) as (body & c & Hbody); [lia|].
  destruct (upto_char_all (iter t)) as [trailing Htrailing].
  rewrite Hk in Htrailing.
  eexists _, body, c, trailing. split; [done|].
  rewrite iter_collect, iter_SWF_nil. simpl app. by rewrite <- Htrailing.
Qed.

(** X15. The full slice [t[:]] of a text with a visible character
    holds the items of [t] up to the last visible character and ends
    with it: the markers that stand behind that character in [t] are
    not in the slice.  So for every [t] that ends with a marker, such
    as a closing [normal], that marker is lost and [t[:]] is not a copy
    of [t]. *)
Theorem full_slice_drops_trailing_markers (t : value) (n : Z) :
  well_formed t -> len t = Ok n -> 1 <= n ->
  exists s body c trailing,
    getslice t None None = Ok s
    /\ iter s = body ++ [Ch c]
    /\ iter t = iter s ++ List.map Fm trailing
    /\ (forall f, last (iter t) = Some (Fm f) ->
        last trailing = Some f
        /\ (length (markers (iter s)) < length (markers (iter t)))%nat
        /\ s <> t).
Proof.
  intros Hwf Hlen Hn.
  destruct (getslice_full t n Hwf Hlen Hn)
    as (s & body & c & trailing & Hs & Hbody & Hiter).
  exists s, body, c, trailing. split; [done|]. split; [done|].
  split; [done|]. intros f Hlast.
  assert (exists init, trailing = init ++ [f]) as [init ->].
  { rewrite Hiter, Hbody in Hlast.
    destruct trailing as [|g trailing _] using rev_ind.
    - simpl in Hlast. rewrite app_nil_r, last_snoc in Hlast. done.
    - rewrite List.map_app in Hlast. simpl in Hlast.
      rewrite app_assoc, last_snoc in Hlast. injection Hlast as ->.
      by exists trailing. }
  split; [by rewrite last_snoc|].
  assert (length (markers (iter s)) < length (markers (iter t)))%nat as Hless.
  { rewrite Hiter, markers_app, markers_map_Fm, !length_app. simpl. lia. }
  split; [done|]. intros ->. lia.
Qed.

Lemma full_slice_drops_trailing_markers_witness :
  let t := SWF [Fmt (PlainFormat "bold"); Str "hello";
                Fmt (PlainFormat "normal")] in
  exists s body c trailing,
    getslice t None None = Ok s
    /\ iter s = body ++ [Ch c]
    /\ iter t = iter s ++ List.map Fm trailing
    /\ (forall f, last (iter t) = Some (Fm f) ->
        last trailing = Some f
        /\ (length (markers (iter s)) < length (markers (iter t)))%nat
        /\ s <> t).
Proof.
  apply (full_slice_drops_trailing_markers _ 5); [reflexivity..|lia].
Defined.

(** ** Slices of slices, and single characters *)

Lemma before_char_markers (m : nat) (fs : list Format) (its : list item) :
  before_char m (List.map Fm fs ++ its) = List.map Fm fs ++ before_char m its.
Proof. induction fs as [|f fs IH]; simpl; [done|by rewrite IH]. Qed.

Lemma from_char_markers (m : nat) (fs : list Format) (its : list item) :
  from_char m (List.map Fm fs ++ its) = from_char m its.
Proof. induction fs as [|f fs IH]; simpl; [done|by rewrite IH]. Qed.

Lemma before_char_upto (m k : nat) (its : list item) :
  (m < k)%nat -> before_char m (upto_char k its) = before_char m its.
Proof.
  revert m k. induction its as [|[c|f] its IH]; intros m k Hmk;
    (destruct k as [|k]; [lia|]); simpl; [done| |].
  - destruct m as [|m]; [done|]. rewrite IH; [done|lia].
  - by rewrite (IH m (S k)).
Qed.

Lemma from_char_upto (m k : nat) (its : list item) :
  (m <= k)%nat ->
  from_char m (upto_char k its) = upto_char (k - m) (from_char m its).
Proof.
  revert m k. induction its as [|[c|f] its IH]; intros m k Hmk.
  - assert (forall n, upto_char n [] = []) as Hnil by (by intros []).
    rewrite Hnil. simpl from_char. by rewrite Hnil.
  - destruct k as [|k].
    + assert (m = O) as -> by lia. by rewrite !upto_char_0.
    + destruct m as [|m]; [done|]. simpl. apply IH. lia.
  - destruct k as [|k].
    + assert (m = O) as -> by lia. by rewrite !upto_char_0.
    + simpl. by rewrite (IH m (S k)).
Qed.

Lemma upto_char_upto (k n : nat) (its : list item) :
  (k <= n)%nat -> upto_char k (upto_char n its) = upto_char k its.
Proof.
  revert k n. induction its as [|[c|f] its IH]; intros k n Hkn.
  - destruct k, n; done.
  - destruct k as [|k]; [by rewrite !upto_char_0|].
    destruct n as [|n]; [lia|]. simpl. rewrite IH; [done|lia].
  - destruct k as [|k]; [by rewrite !upto_char_0|].
    destruct n as [|n]; [lia|]. simpl. by rewrite (IH (S k) (S n)).
Qed.

Lemma from_char_from (i m : nat) (its : list item) :
  from_char m (from_char i its) = from_char (i + m) its.
Proof.
  revert i. induction its as [|[c|f] its IH]; intros i; simpl.
  - done.
  - destruct i as [|i]; [done|]. apply IH.
  - apply IH.
Qed.

Lemma before_char_add (i m : nat) (its : list item) :
  before_char (i + m) its
  = before_char i its ++ before_char m (from_char i its).
Proof.
  revert i. induction its as [|[c|f] its IH]; intros i; simpl.
  - done.
  - destruct i as [|i]; [done|]. simpl. by rewrite IH.
  - by rewrite IH.
Qed.

(** X16. Slices compose: a non-empty slice [[m:k]] of the slice
    [t[i:j]] is the slice [t[i+m : i+k]], with the same markers and the
    same segments. *)
Theorem slice_of_slice (t : value) (n i j m k : Z) :
  well_formed t -> len t = Ok n ->
  0 <= i -> i < j -> j <= n ->
  0 <= m -> m < k -> k <= j - i ->
  exists s, getslice t (Some i) (Some j) = Ok s
    /\ getslice s (Some m) (Some k)
       = getslice t (Some (i + m)) (Some (i + k)).
Proof.
  intros Hwf Hlen Hi Hij Hj Hm Hmk Hk.
  rewrite len_well_formed in Hlen by done. injection Hlen as <-.
  rewrite (getslice_range t i j) by done. eexists. split; [done|].
  destruct (from_char_head (Z.to_nat i) (iter t)) as (c & r & _ & Hv); [lia|].
  rewrite !getslice_range;
    [|done|lia..|apply slice_well_formed|lia|lia|].
  2:{ rewrite iter_slice, visible_app, visible_upto_char by lia.
      assert (visible (List.map Fm (markers (before_char (Z.to_nat i) (iter t))))
              = 0) as ->; [|lia].
      induction (markers _) as [|f fs IH]; simpl; [done | by rewrite IH]. }
  rewrite iter_slice. do 3 f_equal.
  - rewrite before_char_markers, markers_app, markers_map_Fm.
    rewrite before_char_upto by lia.
    replace (Z.to_nat (i + m)) with (Z.to_nat i + Z.to_nat m)%nat by lia.
    by rewrite before_char_add, markers_app.
  - rewrite from_char_markers, from_char_upto by lia.
    rewrite upto_char_upto by lia. rewrite from_char_from.
    replace (Z.to_nat (i + m)) with (Z.to_nat i + Z.to_nat m)%nat by lia.
    by replace (Z.to_nat (i + k - (i + m))) with (Z.to_nat (k - m)) by lia.
Qed.

Lemma slice_of_slice_witness :
  let t := SWF [Fmt (PlainFormat "bold"); Str "hello";
                Fmt (PlainFormat "normal"); Str " world"] in
  exists s, getslice t (Some 2) (Some 9) = Ok s
    /\ getslice s (Some 1) (Some 5)
       = getslice t (Some (2 + 1)) (Some (2 + 5)).
Proof.
  apply (slice_of_slice _ 11); [reflexivity | reflexivity | lia..].
Defined.

(** X17. An integer index gives a plain string of one character, the
    text of the slice [t[i:i+1]]: the markers are not part of it.  The
    index [i - len(t)] names the same character, and an index outside
    the text raises [IndexError], where a slice is clamped. *)
Theorem getitem_index (t : value) (text : string) (i : Z) :
  well_formed t -> str t = Ok text ->
  (0 <= i < Z.of_nat (String.length text) ->
   exists s c,
     getslice t (Some i) (Some (i + 1)) = Ok s /\ str s = Ok c
     /\ getitem t i = Ok (Str c)
     /\ getitem t (i - Z.of_nat (String.length text)) = Ok (Str c))
  /\ (Z.of_nat (String.length text) <= i
      \/ i < - Z.of_nat (String.length text) ->
      getitem t i = Raise IndexError).
Proof.
  intros Hwf Hstr. split.
  - intros Hi.
    destruct (getslice_str t text i (i + 1)) as (s & Hs & Hc); [done|done|lia..|].
    exists s, (str_getslice text (Some i) (Some (i + 1))).
    split; [done|]. split; [done|].
    assert (str_getslice text (Some i) (Some (i + 1))
            = substring (Z.to_nat i) 1 text) as ->.
    { unfold str_getslice, str_bound.
      destruct (Z.ltb_spec i 0); [lia|].
      destruct (Z.ltb_spec (i + 1) 0); [lia|].
      rewrite !Z.min_l by lia. f_equal. lia. }
    destruct t as [| |content]; [done..|]. unfold getitem. rewrite Hstr.
    simpl bind. unfold str_getitem.
    destruct (Z.ltb_spec i 0); [lia|].
    destruct (Z.ltb_spec (i - Z.of_nat (String.length text)) 0); [|lia].
    replace (i - Z.of_nat (String.length text) + Z.of_nat (String.length text))
      with i by lia.
    destruct (Z.leb_spec 0 i); [|lia].
    destruct (Z.ltb_spec i (Z.of_nat (String.length text))); [|lia]. done.
  - intros Hi. destruct t as [| |content]; [done..|]. unfold getitem.
    rewrite Hstr. simpl bind. unfold str_getitem.
    destruct (Z.ltb_spec i 0);
      [destruct (Z.leb_spec 0 (i + Z.of_nat (String.length text)))
      |destruct (Z.leb_spec 0 i)]; try lia; try done.
    simpl. destruct (Z.ltb_spec i (Z.of_nat (String.length text)));
      [lia|done].
Qed.

Lemma getitem_index_witness :
  let t := SWF [Fmt (PlainFormat "bold"); Str "hello";
                Fmt (PlainFormat "normal"); Str " world"] in
  (0 <= 4 < Z.of_nat (String.length "hello world") ->
   exists s c,
     getslice t (Some 4) (Some (4 + 1)) = Ok s /\ str s = Ok c
     /\ getitem t 4 = Ok (Str c)
     /\ getitem t (4 - Z.of_nat (String.length "hello world")) = Ok (Str c))
  /\ (Z.of_nat (String.length "hello world") <= 4
      \/ 4 < - Z.of_nat (String.length "hello world") ->
      getitem t 4 = Raise IndexError).
Proof. apply getitem_index; reflexivity. Defined.

(** ** Sums *)

Lemma str_flat (v : value) :
  flat v -> str v = Ok (string_of_list_ascii (chars (iter v))).
Proof.
  destruct v as [s|f|c]; intros H.
  - unfold iter. by rewrite chars_map_Ch, string_of_list_ascii_of_string.
  - done.
  - apply str_chars, H.
Qed.

(** X18. Where the last branch of [StringWithFormatting.__add__] is not
    misled, the text of a sum is the text of the left operand followed
    by the text of the right one, and the markers of the sum are those
    of the left operand followed by those of the right one. *)
Theorem add_text_and_markers (x y : value) :
  flat x -> flat y -> branch_agrees x y ->
  exists z a b,
    add x y = Ok z /\ str x = Ok a /\ str y = Ok b
    /\ str z = Ok (a +:+ b)
    /\ markers (iter z) = markers (iter x) ++ markers (iter y).
Proof.
  intros Hx Hy Hxy.
  destruct (add_flat_flat x y Hx Hy Hxy) as (z & Hz & Hflat & Hiter).
  exists z. eexists _, _. split; [done|].
  rewrite !str_flat by done. split; [done|]. split; [done|].
  by rewrite Hiter, chars_app, markers_app, string_of_list_ascii_app.
Qed.

Lemma add_text_and_markers_witness :
  let x := SWF [Fmt (PlainFormat "bold"); Str "hello"] in
  let y := SWF [Str " world"; Fmt (PlainFormat "normal")] in
  exists z a b,
    add x y = Ok z /\ str x = Ok a /\ str y = Ok b
    /\ str z = Ok (a +:+ b)
    /\ markers (iter z) = markers (iter x) ++ markers (iter y).
Proof. apply add_text_and_markers; simpl; try done. Defined.

(** X19. On plain strings and markers [+] is associative: the two
    ways of bracketing [x + y + z] give the same value, strings merged
    into the same runs. *)
Theorem add_assoc_segments (x y z : value) :
  is_segment x = true -> is_segment y = true -> is_segment z = true ->
  (let* a := add x y in add a z) = (let* b := add y z in add x b).
Proof.
  intros Hx Hy Hz.
  destruct x as [a|f|?], y as [b|g|?], z as [c|h|?]; try done; simpl;
    by rewrite ?string_append_assoc.
Qed.

Lemma add_assoc_segments_witness :
  (let* a := add (Str "a") (Fmt (PlainFormat "bold")) in add a (Str "b"))
  = (let* b := add (Fmt (PlainFormat "bold")) (Str "b") in add (Str "a") b).
Proof. apply add_assoc_segments; reflexivity. Defined.

(** X20. Calling a marker: [Format(a)(content)] never raises, whatever
    the content, and returns the rich text that holds the marker, then
    the segments of the content, then [Format('normal')]; what can be
    seen of the content is unchanged. *)
Theorem format_call_wraps (a : string) (content_string : value) :
  let self := PlainFormat a in
  let result :=
    SWF (Fmt self :: content_of content_string
         ++ [Fmt (PlainFormat "normal")]) in
  format_call self content_string = Ok result
  /\ iter result
     = Fm self :: iter content_string ++ [Fm (PlainFormat "normal")]
  /\ visible (iter result) = visible (iter content_string).
Proof.
  assert (forall v, iter (SWF (content_of v)) = iter v) as Hcontent.
  { intros [s|f|c]; simpl content_of; [| |done];
      by rewrite iter_SWF_cons, iter_SWF_nil, app_nil_r. }
  intros self result. split; [by destruct content_string|].
  assert (iter result
          = Fm self :: iter content_string ++ [Fm (PlainFormat "normal")])
    as ->.
  { unfold result. by rewrite (iter_SWF_cons (Fmt _)), iter_SWF_app, Hcontent. }
  split; [done|].
  change (visible (Fm self :: ?l)) with (0 + visible l).
  rewrite visible_app. simpl. lia.
Qed.

(** ** Splitting *)

Lemma value_nested_ind (P : value -> Prop) :
  (forall s, P (Str s)) -> (forall f, P (Fmt f)) ->
  (forall content, Forall P content -> P (SWF content)) ->
  forall v, P v.
Proof.
  intros HStr HFmt HSWF. fix IH 1. intros [s|f|content]; [done..|].
  apply HSWF. induction content as [|x content IHc]; constructor; [|done].
  apply IH.
Qed.

Lemma split_loop_content (cur s : string) :
  content (iter (SWF (List.map Str (split_loop cur s))))
  = content (iter (Str cur)) ++ content (iter (Str s)).
Proof.
  revert cur. induction s as [|c s IH]; intros cur; simpl split_loop.
  - destruct (nonempty cur) eqn:Hcur.
    + simpl List.map. by rewrite iter_SWF_cons, iter_SWF_nil, content_app.
    + apply nonempty_false in Hcur as ->. done.
  - change (iter (Str (String c s))) with (Ch c :: iter (Str s)).
    unfold content at 3. simpl List.filter. fold (content (iter (Str s))).
    destruct (isspace c) eqn:Hc; simpl negb; cbv iota.
    + destruct (nonempty cur) eqn:Hcur.
      * simpl List.map. by rewrite iter_SWF_cons, content_app, IH.
      * apply nonempty_false in Hcur as ->. apply IH.
    + rewrite IH, iter_Str_append, content_app, <- app_assoc.
      assert (content (iter (Str (String c ""))) = [Ch c]) as ->
        by (unfold content, iter; simpl; by rewrite Hc).
      done.
Qed.

Lemma split_loop_words (cur s : string) :
  forallb (fun c => negb (isspace c)) (list_ascii_of_string cur) = true ->
  Forall word (split_loop cur s).
Proof.
  revert cur. induction s as [|c s IH]; intros cur Hcur; simpl.
  - destruct (nonempty cur) eqn:Hne; [|done].
    constructor; [|done]. split; [|done]. by destruct cur.
  - destruct (isspace c) eqn:Hc.
    + destruct (nonempty cur) eqn:Hne; [|by apply IH].
      constructor; [|by apply IH]. split; [|done]. by destruct cur.
    + apply IH. rewrite chars_append, forallb_app, Hcur. simpl. by rewrite Hc.
Qed.

(** X21. [split()] loses white space and nothing else: the markers and
    the characters that are not white space are all in the pieces, in
    the order they have in the text. *)
Theorem split_keeps_content (t : value) :
  content (iter (SWF (split t))) = content (iter t).
Proof.
  induction t as [s|f|segments IH] using value_nested_ind.
  - apply (split_loop_content "" s).
  - done.
  - induction IH as [|x segments Hx _ IHsegments]; [done|].
    change (split (SWF (x :: segments)))
      with (split x ++ split (SWF segments)).
    by rewrite iter_SWF_app, iter_SWF_cons, !content_app, Hx, IHsegments.
Qed.

(** X22. Every piece that [split()] returns is a marker or a plain
    string that is not empty and holds no white space; no rich text is
    among the pieces, whatever the segments of the text. *)
Theorem split_pieces (t : value) : Forall piece (split t).
Proof.
  induction t as [s|f|segments IH] using value_nested_ind.
  - simpl. apply Forall_fmap. by apply split_loop_words.
  - by repeat constructor.
  - induction IH as [|x segments Hx _ IHsegments]; [constructor|].
    change (split (SWF (x :: segments)))
      with (split x ++ split (SWF segments)).
    by apply Forall_app.
Qed.

(** ** The edges of a line *)

Lemma run_of_uniform (t : char_type) (v : value) : run_of t v -> uniform v.
Proof.
  intros (_ & _ & Hall). destruct v as [s| |]; [|done..]. simpl.
  unfold iter in Hall. destruct t.
  - left. induction (list_ascii_of_string s) as [|a l IH]; [done|].
    apply Forall_cons in Hall as [Ha _]. simpl in Ha.
    by destruct (in_whitespace a).
  - left. induction (list_ascii_of_string s) as [|a l IH]; [done|].
    apply Forall_cons in Hall as [Ha Hl]. simpl in Ha |- *.
    destruct (in_whitespace a); [by apply IH|done].
  - right. induction (list_ascii_of_string s) as [|a l IH]; [done|].
    apply Forall_cons in Hall as [Ha Hl]. simpl in Ha |- *.
    destruct (in_whitespace a); [done|by apply IH].
Qed.

Lemma forallb_take_drop (p : ascii -> bool) (k a : nat) (l : list ascii) :
  forallb p l = true -> forallb p (take k (drop a l)) = true.
Proof.
  rewrite !forallb_forall. intros H x Hx. apply H.
  apply list_elem_of_In. apply list_elem_of_In in Hx.
  by apply (subseteq_drop a l), (subseteq_take k).
Qed.

Lemma uniform_getslice (s : string) (a b : option Z) :
  uniform (Str s) -> uniform (Str (str_getslice s a b)).
Proof.
  unfold uniform, str_getslice. rewrite substring_chars.
  intros [H|H]; [left|right]; by apply forallb_take_drop.
Qed.

Lemma nonblank_uniform (s : string) :
  blank s = false -> uniform (Str s) ->
  exists c l, list_ascii_of_string s = c :: l
    /\ forallb (fun c => negb (in_whitespace c)) (c :: l) = true.
Proof.
  intros Hblank [Hws|Hnws].
  - apply forallb_whitespace_isspace, blank_spaces in Hws. congruence.
  - destruct s as [|c s]; [done|]. by exists c, (list_ascii_of_string s).
Qed.

Lemma chars_simple (v : value) :
  simple v -> is_plain v = false -> chars (iter v) = [].
Proof.
  destruct v as [s|f|c]; [done..|]. intros [_ Hf] _.
  by apply chars_of_markers, iter_markers_only.
Qed.

(** The first character after stripping on the left. *)
Lemma head_chars (l : list value) :
  Forall simple l -> Forall uniform l ->
  (forall s, first_string l = Some s -> blank s = false) ->
  edge_ok (head (chars (iter (SWF l)))).
Proof.
  induction 1 as [|x l Hx _ IH]; intros Hu Hfirst; [done|].
  apply Forall_cons in Hu as [Hux Hul]. rewrite iter_SWF_cons, chars_app.
  destruct x as [s|f|c].
  - destruct (nonblank_uniform s) as (a & r & Hs & Hall); [by apply Hfirst|done|].
    unfold iter at 1. rewrite chars_map_Ch, Hs. simpl in Hall |- *.
    apply andb_prop in Hall as [Ha _]. by destruct (in_whitespace a).
  - apply IH; done.
  - rewrite (chars_simple (SWF c)) by done. apply IH; done.
Qed.

(** The last character after stripping on the right. *)
Lemma last_chars (r : list value) :
  Forall simple r -> Forall uniform r ->
  (forall s, first_string r = Some s -> blank s = false) ->
  edge_ok (last (chars (iter (SWF (reverse r))))).
Proof.
  induction 1 as [|x r Hx _ IH]; intros Hu Hfirst; [done|].
  apply Forall_cons in Hu as [Hux Hur].
  rewrite reverse_cons, iter_SWF_app, iter_SWF_cons, iter_SWF_nil, app_nil_r.
  rewrite chars_app, last_app.
  destruct x as [s|f|c].
  - destruct (nonblank_uniform s) as (a & l & Hs & Hall); [by apply Hfirst|done|].
    unfold iter at 1. rewrite chars_map_Ch, Hs.
    destruct (last (a :: l)) as [z|] eqn:Hlast;
      [|by apply last_None in Hlast].
    apply last_Some_elem_of, list_elem_of_In in Hlast.
    rewrite forallb_forall in Hall. specialize (Hall z Hlast).
    simpl. by destruct (in_whitespace z).
  - apply IH; done.
  - rewrite (chars_simple (SWF c)) by done. apply IH; done.
Qed.

(** Stripping on the left of the reversed list takes characters from
    the end only. *)
Lemma strip_left_chars_prefix (l r : list value) :
  strip_left l = Ok r ->
  exists tail,
    chars (iter (SWF (reverse l))) = chars (iter (SWF (reverse r))) ++ tail.
Proof.
  revert r. induction l as [|[s|f|c] l IH]; intros r; simpl.
  - intros [= <-]. by exists [].
  - destruct (blank s).
    + intros H. destruct (IH r H) as [tail Htail].
      exists (tail ++ chars (iter (SWF [Str s]))).
      by rewrite reverse_cons, iter_SWF_app, chars_app, Htail, app_assoc.
    + intros [= <-]. exists []. by rewrite app_nil_r.
  - destruct (strip_left l) as [r'|] eqn:Hr; [|done]. simpl.
    intros [= <-]. destruct (IH r' eq_refl) as [tail Htail].
    exists tail. rewrite !reverse_cons, !iter_SWF_app, !chars_app, Htail.
    simpl. by rewrite !app_nil_r.
  - done.
Qed.

Lemma edge_ok_prefix (l tail : list ascii) :
  edge_ok (head (l ++ tail)) -> l = [] \/ edge_ok (head l).
Proof. destruct l; [by left|by right]. Qed.

(** A turn of [wrap] on uniform chunks leaves uniform chunks and
    appends a trimmed line. *)
Lemma wrap_line_trimmed (width : Z) (chunks chunks' : list value)
    (line : value) :
  0 <= width -> Forall simple chunks -> Forall uniform chunks ->
  wrap_line width chunks = Ok (line, chunks') ->
  Forall simple chunks' /\ Forall uniform chunks' /\ trimmed line.
Proof.
  intros Hwidth Hall Hu Hline.
  destruct (wrap_line_parts _ _ _ _ Hline) as (cl & Hfill & Hjoin).
  pose proof (fill_line_cases width chunks Hwidth Hall) as Hcases.
  destruct (strip_left chunks) as [stripped|e] eqn:Hstrip; [|congruence].
  pose proof (strip_left_pruned _ _ Hstrip) as Hpr.
  pose proof (pruned_Forall _ _ _ Hpr Hall) as Hall1.
  pose proof (pruned_Forall _ _ _ Hpr Hu) as Hu1.
  destruct (strip_left_fixed _ _ Hstrip) as [_ Hfirst].
  pose proof (head_chars stripped Hall1 Hu1 Hfirst) as Hhead.
  assert (Forall simple chunks' /\ Forall uniform chunks'
          /\ Forall simple cl /\ Forall uniform cl
          /\ exists tail,
               chars (iter (SWF stripped)) = chars (iter (SWF cl)) ++ tail)
    as (Hsc & Huc & Hscl & Hucl & tail & Htail).
  { destruct Hcases as (popped & rest & -> & _ &
      [[Heq _]|(s & rest0 & -> & _ & Heq)]);
      rewrite Heq in Hfill; injection Hfill as <- <-;
      apply Forall_app in Hall1 as [Hsp Hsr];
      apply Forall_app in Hu1 as [Hup Hur].
    - repeat split; try done. exists (chars (iter (SWF rest))).
      by rewrite iter_SWF_app, chars_app.
    - apply Forall_cons in Hsr as [_ Hsr]. apply Forall_cons in Hur as [Hus Hur].
      split; [by constructor|]. split.
      { constructor; [by apply uniform_getslice|done]. }
      split; [apply Forall_app; split; [done|by repeat constructor]|].
      split.
      { apply Forall_app. split; [done|].
        constructor; [by apply uniform_getslice|done]. }
      exists (chars (iter (SWF (Str (str_getslice s
                (Some (width - total popped)) None) :: rest0)))).
      rewrite <- (str_getslice_split s (width - total popped)) at 1.
      rewrite !iter_SWF_app, !iter_SWF_cons, iter_SWF_nil, iter_Str_append.
      rewrite !chars_app. simpl (chars []). by rewrite app_nil_r, <- !app_assoc. }
  split; [done|]. split; [done|].
  pose proof (join_line_cases cl Hscl) as Hjc.
  destruct (strip_left (reverse cl)) as [r|e] eqn:Hr; [|congruence].
  destruct Hjc as (line' & Heq & _ & Hiter & _).
  rewrite Heq in Hjoin. injection Hjoin as <-.
  pose proof (strip_left_pruned _ _ Hr) as Hprr.
  destruct (strip_left_fixed _ _ Hr) as [_ Hfirstr].
  assert (Forall simple r /\ Forall uniform r) as [Hsr Hur].
  { split; eapply pruned_Forall; try done; by apply Forall_reverse. }
  unfold trimmed. rewrite Hiter. split; [|by apply last_chars].
  destruct (strip_left_chars_prefix _ _ Hr) as [tail' Htail'].
  rewrite reverse_involutive in Htail'. rewrite Htail', <- app_assoc in Htail.
  rewrite Htail in Hhead.
  by destruct (edge_ok_prefix _ _ Hhead) as [->|?].
Qed.

Lemma wrap_loop_trimmed (fuel : nat) (width : Z)
    (chunks result lines : list value) :
  0 <= width -> Forall simple chunks -> Forall uniform chunks ->
  Forall trimmed result ->
  wrap_loop fuel width chunks result = Some (Ok lines) ->
  Forall trimmed lines.
Proof.
  intros Hwidth. revert chunks result.
  induction fuel as [|fuel IH]; intros chunks result Hall Hu Hres.
  - destruct chunks; [|done]. by intros [= <-].
  - destruct chunks as [|chunk chunks]; [by intros [= <-]|].
    rewrite wrap_loop_step by done.
    destruct (wrap_line width (chunk :: chunks)) as [[line chunks']|e] eqn:Hline;
      [|done].
    destruct (wrap_line_trimmed _ _ _ _ Hwidth Hall Hu Hline)
      as (Hall' & Hu' & Htrim).
    apply IH; [done..|]. apply Forall_app. split; [done|by constructor].
Qed.

(** X23. No line that [wrap] returns starts or ends with white space:
    the first and the last visible character of every line, if it has
    any, are not characters of [string.whitespace]. *)
Theorem wrap_lines_trimmed (fuel : nat) (text : value) (width : Z)
    (lines : list value) :
  0 <= width -> wrap fuel text width = Some (Ok lines) ->
  Forall trimmed lines.
Proof.
  intros Hwidth. unfold wrap.
  destruct (chunk_simple text) as (chunks & Hchunk & Hall).
  destruct (chunk_loop_runs (iter text) (Str "") None eq_refl)
    as (chunks' & Hchunk' & _ & _ & _ & Hruns).
  unfold _chunk in *. rewrite Hchunk' in Hchunk. injection Hchunk as ->.
  rewrite Hchunk'. apply wrap_loop_trimmed; [done..| |done].
  destruct Hruns as [Hruns|(_ & _ & ->)].
  - eapply Forall_impl; [done|]. intros v [t Ht]. by eapply run_of_uniform.
  - constructor; [by left|done].
Qed.

Lemma wrap_lines_trimmed_witness :
  Forall trimmed [Str "hello"; Str "big"; Str "world"].
Proof.
  apply (wrap_lines_trimmed 6 (Str "  hello   big world") 5);
    [lia | reflexivity].
Defined.

(** ** Drawing *)

Lemma draw_items_app (l k : list item) (normal : string) (terminal : Terminal) :
  draw_items (l ++ k) normal terminal
  = let* a := draw_items l normal terminal in
    let* b := draw_items k normal terminal in
    Ok (a +:+ b).
Proof.
  induction l as [|[c|f] l IH]; simpl.
  - by destruct (draw_items k normal terminal).
  - rewrite IH. destruct (draw_items l normal terminal); [|done]. simpl.
    by destruct (draw_items k normal terminal).
  - destruct (format_draw f normal terminal); [|done]. simpl. rewrite IH.
    destruct (draw_items l normal terminal); [|done]. simpl.
    destruct (draw_items k normal terminal); [|done]. simpl.
    by rewrite string_append_assoc.
Qed.

Lemma draw_items_chars (s : string) (normal : string) (terminal : Terminal) :
  draw_items (iter (Str s)) normal terminal = Ok s.
Proof.
  unfold iter. induction s as [|c s IH]; simpl; [done|]. by rewrite IH.
Qed.

(** Drawing goes by items: the way the characters are gathered into
    segments plays no part. *)
Lemma draw_content_items (content : list value) (normal : string)
    (terminal : Terminal) :
  forallb is_segment content = true ->
  draw_content content normal terminal
  = draw_items (iter (SWF content)) normal terminal.
Proof.
  induction content as [|[s|f|c] content IH]; intros Hwf; [done|..];
    simpl in Hwf; [| |done]; rewrite iter_SWF_cons, draw_items_app.
  - simpl draw_content. rewrite IH, draw_items_chars by done. done.
  - simpl. destruct (format_draw f normal terminal); [|done]. simpl.
    rewrite IH by done.
    destruct (draw_items (iter (SWF content)) normal terminal); [|done].
    simpl. by rewrite string_append_nil_r.
Qed.

(** X24. Drawing a sum: where the last branch of
    [StringWithFormatting.__add__] is not misled, [(x + y).draw] is
    [x.draw] followed by [y.draw], for every terminal, and it fails
    where one of the two fails. *)
Theorem draw_add (c d : list value) (normal : string) (terminal : Terminal) :
  flat (SWF c) -> flat (SWF d) -> branch_agrees (SWF c) (SWF d) ->
  exists z,
    add (SWF c) (SWF d) = Ok (SWF z)
    /\ draw_content z normal terminal
       = let* a := draw_content c normal terminal in
         let* b := draw_content d normal terminal in
         Ok (a +:+ b).
Proof.
  intros Hc Hd Hcd.
  destruct (add_flat_flat _ _ Hc Hd Hcd) as (z & Hz & Hflat & Hiter).
  assert (exists content, z = SWF content) as [content ->].
  { simpl in Hz. destruct (at_last _ c) as [nc|]; [|done].
    simpl in Hz. injection Hz as <-. by eexists. }
  exists content. split; [done|].
  rewrite !draw_content_items by (apply Hc || apply Hd || apply Hflat).
  by rewrite Hiter, draw_items_app.
Qed.

Lemma draw_add_witness :
  let c := [Fmt (PlainFormat "bold"); Str "hello"] in
  let d := [Str " world"; Fmt (PlainFormat "normal")] in
  let terminal :=
    {| capability := fun name => Some ("<" +:+ name +:+ ">");
       parameterized := fun name _ => name |} in
  exists z,
    add (SWF c) (SWF d) = Ok (SWF z)
    /\ draw_content z "</>" terminal
       = let* a := draw_content c "</>" terminal in
         let* b := draw_content d "</>" terminal in
         Ok (a +:+ b).
Proof. apply draw_add; simpl; try done. Defined.
